(** * Popover: a shallow embedding of [src/utils/popover.js]

    The source file holds two versions of the [Popover] class: one whose
    search field is backed by a debounced remote fetch ([Remote] below) and
    one whose search field filters the item list locally ([Local] below).

    Strings are modelled as lists of ASCII code units (0 to 127; the upper
    half of [ascii] is outside the model).  On that range the ECMAScript
    operations used by the source ([String.prototype.trim], the [i] flag's
    [Canonicalize], [toLowerCase], the [\b] word-character test) have the
    closed forms written out below.  Statements that say what a search
    matches for arbitrary text carry the hypothesis [isASCII] on the typed
    value and on the labels.

    The DOM is modelled as far as the class uses it: the wrapper's child
    list, the row elements with their [dataset.index] and the two class-list
    flags the code toggles, and the wrapper's open flag.  Host callbacks are
    opaque: calling an [onClick] is recorded, and [hideIf] is a function of
    the host state. *)

From Stdlib Require Import Ascii String Bool Arith Lia.
From stdpp Require Import base option list.

Open Scope char_scope.
Open Scope list_scope.

(** ** Code units *)

Definition code (c : ascii) : nat := nat_of_ascii c.

Definition between (lo hi n : nat) : bool := Nat.leb lo n && Nat.leb n hi.

(** [WordCharacters] of a pattern compiled without the [u] flag:
    [A-Za-z0-9_]. *)
Definition isWordChar (c : ascii) : bool :=
  between 48 57 (code c) || between 65 90 (code c) ||
  between 97 122 (code c) || Nat.eqb (code c) 95.

(** [Canonicalize] under the [i] flag, without [u]: the upper-case mapping. *)
Definition Canonicalize (c : ascii) : ascii :=
  if between 97 122 (code c) then ascii_of_nat (code c - 32) else c.

(** [String.prototype.toLowerCase], per code unit. *)
Definition toLowerCase1 (c : ascii) : ascii :=
  if between 65 90 (code c) then ascii_of_nat (code c + 32) else c.

Definition toLowerCase (s : list ascii) : list ascii := map toLowerCase1 s.

(** White space and line terminators stripped by [trim]:
    TAB, LF, VT, FF, CR and SPACE. *)
Definition isWhiteSpace (c : ascii) : bool :=
  between 9 13 (code c) || Nat.eqb (code c) 32.

Fixpoint trimStart (s : list ascii) : list ascii :=
  match s with
  | c :: s' => if isWhiteSpace c then trimStart s' else s
  | [] => []
  end.

Definition trimEnd (s : list ascii) : list ascii := rev (trimStart (rev s)).

Definition trim (s : list ascii) : list ascii := trimEnd (trimStart s).

(** The character class of [/[.*+?^${}()|[\]\\]/g]. *)
Definition isSyntaxCharacter (c : ascii) : bool :=
  existsb (Ascii.eqb c)
    ["."; "*"; "+"; "?"; "^"; "$"; "{"; "}"; "("; ")"; "|"; "["; "]"; "\"].

(** [inputValue.replace(/[.*+?^${}()|[\]\\]/g, '\\$&')] *)
Fixpoint escapeRegExp (s : list ascii) : list ascii :=
  match s with
  | [] => []
  | c :: s' =>
      if isSyntaxCharacter c then "\" :: c :: escapeRegExp s'
      else c :: escapeRegExp s'
  end.

(** [input.split('').join(sep)] *)
Fixpoint splitJoin (sep s : list ascii) : list ascii :=
  match s with
  | [] => []
  | [c] => [c]
  | c :: s' => c :: sep ++ splitJoin sep s'
  end.

(** ** The fragment of [RegExp] the source constructs *)

Module RegExp.

Inductive atom : Type :=
| Lit (c : ascii)     (* a pattern character or an identity escape *)
| Any.                (* [.] *)

Inductive term : Type :=
| TAtom (a : atom)
| TStar (a : atom)    (* [a*] and [a*?]: [test] only asks whether a match exists *)
| TWordB.             (* [\b] *)

Inductive token : Type :=
| KChar (c : ascii)   (* an ordinary pattern character *)
| KEsc (c : ascii)    (* backslash followed by [c] *)
| KSyn (c : ascii).   (* an unescaped syntax character *)

Inductive error : Type :=
| SyntaxError         (* the constructor throws *)
| Unsupported.        (* valid or not, outside the fragment modelled here *)

Fixpoint lex (p : list ascii) : error + list token :=
  match p with
  | [] => inr []
  | "\" :: [] => inl SyntaxError            (* \ at end of pattern *)
  | "\" :: c :: p' =>
      match lex p' with
      | inr ks => inr (KEsc c :: ks)
      | inl e => inl e
      end
  | c :: p' =>
      match lex p' with
      | inr ks => inr ((if isSyntaxCharacter c then KSyn c else KChar c) :: ks)
      | inl e => inl e
      end
  end.

Definition atomOf (k : token) : option atom :=
  match k with
  | KChar c => Some (Lit c)
  | KEsc c => if isSyntaxCharacter c then Some (Lit c) else None
  | KSyn c => if Ascii.eqb c "." then Some Any else None
  end.

Definition isStar (k : token) : bool :=
  match k with KSyn c => Ascii.eqb c "*" | _ => false end.

Definition isQuest (k : token) : bool :=
  match k with KSyn c => Ascii.eqb c "?" | _ => false end.

Definition cons_term (t : term) (r : error + list term) : error + list term :=
  match r with
  | inr ts => inr (t :: ts)
  | inl e => inl e
  end.

Fixpoint parse (ks : list token) : error + list term :=
  match ks with
  | [] => inr []
  | KEsc "b" :: ks' => cons_term TWordB (parse ks')
  | k :: ks' =>
      match atomOf k with
      | None => inl Unsupported
      | Some a =>
          match ks' with
          | q :: ks'' =>
              if isStar q then
                match ks'' with
                | z :: ks''' =>
                    if isQuest z then cons_term (TStar a) (parse ks''')
                    else cons_term (TStar a) (parse ks'')
                | [] => inr [TStar a]
                end
              else cons_term (TAtom a) (parse ks')
          | [] => inr [TAtom a]
          end
      end
  end.

(** [new RegExp(pattern, 'i')] *)
Definition compile (p : list ascii) : error + list term :=
  match lex p with
  | inr ks => parse ks
  | inl e => inl e
  end.

Definition isLineTerminator (c : ascii) : bool :=
  Nat.eqb (code c) 10 || Nat.eqb (code c) 13.

Definition atomMatches (a : atom) (c : ascii) : bool :=
  match a with
  | Lit x => Ascii.eqb (Canonicalize x) (Canonicalize c)
  | Any => negb (isLineTerminator c)
  end.

Definition isWord (o : option ascii) : bool :=
  match o with Some c => isWordChar c | None => false end.

(** [\b] holds between [prev] and the head of the remaining input when
    exactly one of the two is a word character. *)
Definition boundary (prev : option ascii) (s : list ascii) : bool :=
  xorb (isWord prev) (isWord (head s)).

(** [matchHere ts prev s]: the terms [ts] match a prefix of [s], where
    [prev] is the code unit just before [s] in the whole input. *)
Fixpoint matchHere (ts : list term) (prev : option ascii) (s : list ascii) : bool :=
  match ts with
  | [] => true
  | TWordB :: ts' => boundary prev s && matchHere ts' prev s
  | TAtom a :: ts' =>
      match s with
      | c :: s' => atomMatches a c && matchHere ts' (Some c) s'
      | [] => false
      end
  | TStar a :: ts' =>
      (fix star (prev : option ascii) (s : list ascii) : bool :=
         matchHere ts' prev s ||
         match s with
         | c :: s' => atomMatches a c && star (Some c) s'
         | [] => false
         end) prev s
  end.

(** The scan over start positions of a non-global, non-sticky pattern. *)
Fixpoint matchFrom (ts : list term) (prev : option ascii) (s : list ascii) : bool :=
  matchHere ts prev s ||
  match s with
  | c :: s' => matchFrom ts (Some c) s'
  | [] => false
  end.

(** [regex.test(s)] *)
Definition test (ts : list term) (s : list ascii) : bool := matchFrom ts None s.

End RegExp.

Definition chars (s : string) : list ascii := list_ascii_of_string s.


(** ** Items, row elements and the widget state *)

(** What the host's [hideIf] closures read, abstracted to a number; a
    [hideIf] returns a boolean. *)
Definition Host : Type := nat.

(** A pre-built element supplied as [item.content]. *)
Definition Content : Type := nat.

(** The [onClick] closures: those supplied by the host, identified by a
    number, and the one [getData] builds for each fetched product. *)
Inductive Callback : Type :=
| HostAction (id : nat)
| AddProduct (title category : string).

Record PopoverItem : Type := {
  label : string;
  icon : string;
  confirmationRequired : bool;        (* absent counts as false *)
  hideIf : option (Host -> bool);     (* [None]: not a function *)
  onClick : option Callback;          (* [None]: undefined *)
  content : option Content;
}.

Inductive RowBody : Type :=
| Custom (c : Content)                (* [itemEl.appendChild(item.content)] *)
| IconLabel (i l : string).           (* the icon and label blocks *)

(** A row element [div.tc-popover__item]. *)
Record Row : Type := {
  dataset_index : nat;
  body : RowBody;
  itemHidden : bool;                  (* classList has tc-popover__item--hidden *)
  itemConfirmState : bool;            (* classList has tc-popover__item--confirm *)
}.

Inductive Node : Type :=
| SearchInput
| RowNode (id : nat).

Inductive Error : Type :=
| TypeError (msg : string)
| RegExpError (e : RegExp.error).

Inductive Completion : Type :=
| Normal
| Throw (e : Error).

(** Row elements are objects shared between the wrapper's child list and
    [this.itemEls]: both hold references (positions) into [heap], which
    keeps every row element ever created. *)
Record State : Type := {
  items : list PopoverItem;           (* this.items *)
  itemEls : list nat;                 (* this.itemEls *)
  interval : option nat;              (* this.interval, remote version only *)
  heap : list Row;
  children : list Node;               (* child nodes of this.wrapper, in order *)
  popoverOpened : bool;               (* wrapper has tc-popover--opened *)
  calls : list Callback;              (* [onClick] closures invoked, oldest first *)
}.

Definition set_items (v : list PopoverItem) (s : State) : State :=
  {| items := v; itemEls := itemEls s; interval := interval s; heap := heap s;
     children := children s; popoverOpened := popoverOpened s; calls := calls s |}.

Definition set_itemEls (v : list nat) (s : State) : State :=
  {| items := items s; itemEls := v; interval := interval s; heap := heap s;
     children := children s; popoverOpened := popoverOpened s; calls := calls s |}.

Definition set_interval (v : option nat) (s : State) : State :=
  {| items := items s; itemEls := itemEls s; interval := v; heap := heap s;
     children := children s; popoverOpened := popoverOpened s; calls := calls s |}.

Definition set_heap (v : list Row) (s : State) : State :=
  {| items := items s; itemEls := itemEls s; interval := interval s; heap := v;
     children := children s; popoverOpened := popoverOpened s; calls := calls s |}.

Definition set_children (v : list Node) (s : State) : State :=
  {| items := items s; itemEls := itemEls s; interval := interval s; heap := heap s;
     children := v; popoverOpened := popoverOpened s; calls := calls s |}.

Definition set_popoverOpened (v : bool) (s : State) : State :=
  {| items := items s; itemEls := itemEls s; interval := interval s; heap := heap s;
     children := children s; popoverOpened := v; calls := calls s |}.

Definition set_calls (v : list Callback) (s : State) : State :=
  {| items := items s; itemEls := itemEls s; interval := interval s; heap := heap s;
     children := children s; popoverOpened := popoverOpened s; calls := v |}.

Definition set_hidden (v : bool) (r : Row) : Row :=
  {| dataset_index := dataset_index r; body := body r;
     itemHidden := v; itemConfirmState := itemConfirmState r |}.

Definition set_confirm (v : bool) (r : Row) : Row :=
  {| dataset_index := dataset_index r; body := body r;
     itemHidden := itemHidden r; itemConfirmState := v |}.

(** ** Parts the two versions share verbatim *)

Definition isRowNode (n : Node) : bool :=
  match n with RowNode _ => true | SearchInput => false end.

(** [wrapper.querySelectorAll('.tc-popover__item')], in document order. *)
Fixpoint rowNodes (ns : list Node) : list nat :=
  match ns with
  | [] => []
  | RowNode id :: ns' => id :: rowNodes ns'
  | SearchInput :: ns' => rowNodes ns'
  end.

(** [elements.forEach(element => element.parentNode.removeChild(element))] *)
Definition removeRows (s : State) : State :=
  set_children (List.filter (fun n => negb (isRowNode n)) (children s)) s.

(** The element built in the body of [items.forEach((item, index) => ...)]. *)
Definition makeRow (index : nat) (item : PopoverItem) : Row :=
  {| dataset_index := index;
     body := match content item with
             | Some c => Custom c
             | None => IconLabel (icon item) (label item)
             end;
     itemHidden := false;
     itemConfirmState := false |}.

(** [items.forEach((item, index) => { ...; this.wrapper.appendChild(itemEl);
    this.itemEls.push(itemEl); })] *)
Fixpoint appendRows (index : nat) (its : list PopoverItem) (s : State) : State :=
  match its with
  | [] => s
  | item :: rest =>
      let id := length (heap s) in
      appendRows (S index) rest
        (set_itemEls (itemEls s ++ [id])
           (set_children (children s ++ [RowNode id])
              (set_heap (heap s ++ [makeRow index item]) s)))
  end.

Definition setConfirmationState (id : nat) (s : State) : State :=
  set_heap (alter (set_confirm true) id (heap s)) s.

Definition clearConfirmationState (id : nat) (s : State) : State :=
  set_heap (alter (set_confirm false) id (heap s)) s.

Definition hasConfirmationState (r : Row) : bool := itemConfirmState r.

(** [get opened()] *)
Definition opened (s : State) : bool := popoverOpened s.

(** [classList.toggle(Popover.CSS.itemHidden, force)] on row [id]. *)
Definition toggleHidden (id : nat) (force : bool) (s : State) : State :=
  set_heap (alter (set_hidden force) id (heap s)) s.

(** The [forEach] of [open()]: [this.itemEls[index]] is [undefined] past the
    end of [itemEls], and reading [classList] from it throws. *)
Fixpoint openRows (h : Host) (index : nat) (its : list PopoverItem) (s : State)
  : State * Completion :=
  match its with
  | [] => (s, Normal)
  | item :: rest =>
      match hideIf item with
      | Some p =>
          match itemEls s !! index with
          | Some id => openRows h (S index) rest (toggleHidden id (p h) s)
          | None =>
              (s, Throw (TypeError "Cannot read properties of undefined (reading 'classList')"))
          end
      | None => openRows h (S index) rest s
      end
  end.

(** [open()], called while the host is in state [h]. *)
Definition open (h : Host) (s : State) : State * Completion :=
  match openRows h 0 (items s) s with
  | (s', Normal) => (set_popoverOpened true s', Normal)
  | (s', Throw e) => (s', Throw e)
  end.

(** [close()] *)
Definition close (s : State) : State :=
  fold_left (fun s' id => clearConfirmationState id s') (itemEls s)
    (set_popoverOpened false s).

(** [event.target] of a click that reaches the wrapper's listener: the
    wrapper itself (padding, gaps), the search field, or a row element or
    one of its descendants. *)
Inductive Target : Type :=
| OnWrapper
| OnSearch
| InRow (id : nat).

(** [event.target.closest('.tc-popover__item')] *)
Definition closest (t : Target) : option nat :=
  match t with
  | InRow id => Some id
  | OnWrapper | OnSearch => None
  end.

(** [item.onClick()] *)
Definition callOnClick (item : PopoverItem) (s : State) : State * Completion :=
  match onClick item with
  | Some cb => (set_calls (calls s ++ [cb]) s, Normal)
  | None => (s, Throw (TypeError "item.onClick is not a function"))
  end.

(** The state [new Popover({items})] followed by the first two statements
    of [render()] leaves: a wrapper holding only the search field. *)
Definition constructed (its : list PopoverItem) : State :=
  {| items := its; itemEls := []; interval := None; heap := [];
     children := [SearchInput]; popoverOpened := false; calls := [] |}.

(** The row elements attached to the wrapper, in document order. *)
Definition attachedRows (s : State) : list Row :=
  omap (fun id => heap s !! id) (rowNodes (children s)).

(** Row [id] is a child of the wrapper. *)
Definition isAttached (id : nat) (s : State) : bool :=
  existsb (Nat.eqb id) (rowNodes (children s)).

(** ** The version with the debounced remote search (first class of the file) *)

Module Remote.

(** [renderItems(items)], lines 141-170. *)
Definition renderItems (newItems : list PopoverItem) (s : State) : State :=
  appendRows 0 newItems (removeRows (set_items newItems s)).

(** [render()]: the wrapper and search field, then [renderItems(this.items)]. *)
Definition render (its : list PopoverItem) : State :=
  renderItems its (constructed its).

(** [popoverClicked(event)], lines 178-197.  [None]: the target is not an
    element of the document, so no such event is dispatched. *)
Definition popoverClicked (t : Target) (s : State) : option (State * Completion) :=
  match closest t with
  | None => Some (s, Normal)
  | Some clickedItem =>
      match heap s !! clickedItem with
      | None => None
      | Some row =>
          let item := items s !! dataset_index row in
          if from_option confirmationRequired false item
             && negb (hasConfirmationState row)
          then Some (setConfirmationState clickedItem s, Normal)
          else
            match item with
            | Some it => Some (callOnClick it s)
            | None =>
                Some (s, Throw (TypeError "Cannot read properties of undefined (reading 'onClick')"))
            end
      end
  end.

Record Product : Type := { title : string; category : string }.

(** What the promise [fetch(...).then(response => response.json())]
    settles to: a rejection, or a parsed body whose [products] property is
    an array ([Some]) or missing ([None]). *)
Inductive FetchOutcome : Type :=
| Rejected
| Body (products : option (list Product)).

(** The widget together with the parts of the platform its asynchronous
    search path uses. *)
Record World : Type := {
  popover : State;
  now : nat;                          (* the clock, in milliseconds *)
  timers : list (nat * nat);          (* pending timeouts: identifier and due time *)
  nextTimerId : nat;
  inFlight : nat;                     (* fetches not yet settled *)
  fetchCycles : nat;                  (* times the timeout callback ran [getData] *)
  console : list string;              (* first argument of each [console.log] *)
  uncaught : list Error;              (* exceptions and rejections nothing handled *)
}.

Definition set_popover (v : State) (w : World) : World :=
  {| popover := v; now := now w; timers := timers w; nextTimerId := nextTimerId w;
     inFlight := inFlight w; fetchCycles := fetchCycles w; console := console w;
     uncaught := uncaught w |}.

Definition set_now (v : nat) (w : World) : World :=
  {| popover := popover w; now := v; timers := timers w; nextTimerId := nextTimerId w;
     inFlight := inFlight w; fetchCycles := fetchCycles w; console := console w;
     uncaught := uncaught w |}.

Definition set_timers (v : list (nat * nat)) (w : World) : World :=
  {| popover := popover w; now := now w; timers := v; nextTimerId := nextTimerId w;
     inFlight := inFlight w; fetchCycles := fetchCycles w; console := console w;
     uncaught := uncaught w |}.

Definition set_nextTimerId (v : nat) (w : World) : World :=
  {| popover := popover w; now := now w; timers := timers w; nextTimerId := v;
     inFlight := inFlight w; fetchCycles := fetchCycles w; console := console w;
     uncaught := uncaught w |}.

Definition set_inFlight (v : nat) (w : World) : World :=
  {| popover := popover w; now := now w; timers := timers w; nextTimerId := nextTimerId w;
     inFlight := v; fetchCycles := fetchCycles w; console := console w;
     uncaught := uncaught w |}.

Definition set_fetchCycles (v : nat) (w : World) : World :=
  {| popover := popover w; now := now w; timers := timers w; nextTimerId := nextTimerId w;
     inFlight := inFlight w; fetchCycles := v; console := console w;
     uncaught := uncaught w |}.

Definition set_console (v : list string) (w : World) : World :=
  {| popover := popover w; now := now w; timers := timers w; nextTimerId := nextTimerId w;
     inFlight := inFlight w; fetchCycles := fetchCycles w; console := v;
     uncaught := uncaught w |}.

Definition set_uncaught (v : list Error) (w : World) : World :=
  {| popover := popover w; now := now w; timers := timers w; nextTimerId := nextTimerId w;
     inFlight := inFlight w; fetchCycles := fetchCycles w; console := console w;
     uncaught := v |}.

(** [clearTimeout(handle)]: drops the pending timeout with that identifier;
    [null] and identifiers no longer pending are ignored. *)
Definition clearTimeout (handle : option nat) (w : World) : World :=
  match handle with
  | Some id => set_timers (List.filter (fun t => negb (Nat.eqb (fst t) id)) (timers w)) w
  | None => w
  end.

(** [setTimeout(callback, delay)]: a fresh identifier, due [delay]
    milliseconds from now. *)
Definition setTimeout (delay : nat) (w : World) : nat * World :=
  let id := nextTimerId w in
  (id, set_nextTimerId (S id) (set_timers (timers w ++ [(id, now w + delay)]) w)).

(** The [keydown] listener of the search field, lines 116-127. *)
Definition keydown (value : list ascii) (w : World) : World :=
  let inputValue := trim value in
  let escapedValue := escapeRegExp inputValue in
  let w1 := clearTimeout (interval (popover w)) w in
  let (id, w2) := setTimeout 500 w1 in
  set_popover (set_interval (Some id) (popover w2)) w2.

(** The item [getData] pushes for one product, lines 64-86. *)
Definition productItem (p : Product) : PopoverItem :=
  {| label := title p;
     icon := "IconDirectionLeftDown";
     confirmationRequired := false;
     hideIf := None;
     onClick := Some (AddProduct (title p) (category p));
     content := None |}.

(** [getData()] from the point where the awaited promise settles, lines
    57-88: a rejection is logged by the [catch] callback, which makes
    [result] undefined. *)
Definition getData (o : FetchOutcome) (w : World) : World * (Error + list PopoverItem) :=
  match o with
  | Rejected =>
      (set_console (console w ++ ["error"%string]) w,
       inl (TypeError "Cannot read properties of undefined (reading 'products')"))
  | Body None =>
      (w, inl (TypeError "Cannot read properties of undefined (reading 'map')"))
  | Body (Some products) =>
      (w, inr (firstn 2 (items (popover w)) ++ map productItem products))
  end.

(** The timeout callback up to the [await]: [getData()] issues the fetch. *)
Definition timerFires (id : nat) (w : World) : option World :=
  match List.find (fun t => Nat.eqb (fst t) id) (timers w) with
  | Some (_, due) =>
      if Nat.leb due (now w) then
        Some (set_fetchCycles (S (fetchCycles w))
                (set_inFlight (S (inFlight w))
                   (set_timers (List.filter (fun t => negb (Nat.eqb (fst t) id)) (timers w)) w)))
      else None
  | None => None
  end.

(** A fetch settles and [this.getData().then(item => this.renderItems(item))]
    runs on; the chain has no rejection handler. *)
Definition fetchSettles (o : FetchOutcome) (w : World) : option World :=
  match inFlight w with
  | 0 => None
  | S n =>
      match getData o (set_inFlight n w) with
      | (w', inr item) => Some (set_popover (renderItems item (popover w')) w')
      | (w', inl e) => Some (set_uncaught (uncaught w' ++ [e]) w')
      end
  end.

Inductive Event : Type :=
| Keydown (value : list ascii)
| Elapse (ms : nat)
| TimerFires (id : nat)
| FetchSettles (o : FetchOutcome)
| Click (t : Target)
| Open (h : Host)
| Close.

Definition finish (w : World) (r : State * Completion) : World :=
  match r with
  | (s, Normal) => set_popover s w
  | (s, Throw e) => set_uncaught (uncaught w ++ [e]) (set_popover s w)
  end.

(** One turn of the event loop; [None] when the event cannot occur. *)
Definition step (e : Event) (w : World) : option World :=
  match e with
  | Keydown value => Some (keydown value w)
  | Elapse ms => Some (set_now (now w + ms) w)
  | TimerFires id => timerFires id w
  | FetchSettles o => fetchSettles o w
  | Click t =>
      match t with
      | InRow id => if isAttached id (popover w) then
                      finish w <$> popoverClicked t (popover w)
                    else None
      | _ => finish w <$> popoverClicked t (popover w)
      end
  | Open h => Some (finish w (open h (popover w)))
  | Close => Some (set_popover (close (popover w)) w)
  end.

Fixpoint run (es : list Event) (w : World) : option World :=
  match es with
  | [] => Some w
  | e :: es' =>
      match step e w with
      | Some w' => run es' w'
      | None => None
      end
  end.

(** The page after [new Popover({items, table}).render()]. *)
Definition boot (its : list PopoverItem) : World :=
  {| popover := render its; now := 0; timers := []; nextTimerId := 1;
     inFlight := 0; fetchCycles := 0; console := []; uncaught := [] |}.

End Remote.

(** ** The version with the local search (second class of the file) *)

Module Local.

(** [renderItems(items)], lines 337-365: [this.items] is not assigned. *)
Definition renderItems (newItems : list PopoverItem) (s : State) : State :=
  appendRows 0 newItems (removeRows s).

Definition render (its : list PopoverItem) : State :=
  renderItems its (constructed its).

(** [popoverClicked(event)], lines 373-393. *)
Definition popoverClicked (t : Target) (s : State) : option (State * Completion) :=
  match closest t with
  | None => Some (s, Normal)
  | Some clickedItem =>
      match heap s !! clickedItem with
      | None => None
      | Some row =>
          match items s !! dataset_index row with
          | Some item =>
              if confirmationRequired item && negb (hasConfirmationState row)
              then Some (setConfirmationState clickedItem s, Normal)
              else Some (callOnClick item s)
          | None =>
              Some (s, Throw (TypeError "Cannot read properties of undefined (reading 'confirmationRequired')"))
          end
      end
  end.

(** The pattern text [`\\b${escapedValue}\\b`]. *)
Definition wordPattern (escapedValue : list ascii) : list ascii :=
  ["\"; "b"] ++ escapedValue ++ ["\"; "b"].

(** The [keydown] listener of the search field, lines 317-323, run with
    [e.target.value] equal to [value]. *)
Definition keydown (value : list ascii) (s : State) : State * Completion :=
  let inputValue := trim value in
  let escapedValue := escapeRegExp inputValue in
  match RegExp.compile (wordPattern escapedValue) with
  | inr reg =>
      (renderItems
         (List.filter (fun item => RegExp.test reg (chars (label item))) (items s)) s,
       Normal)
  | inl e => (s, Throw (RegExpError e))
  end.

Inductive Event : Type :=
| Keydown (value : list ascii)
| Click (t : Target)
| Open (h : Host)
| Close.

(** One turn of the event loop: the state after it and how the handler
    completed; [None] when the event cannot occur. *)
Definition step (e : Event) (s : State) : option (State * Completion) :=
  match e with
  | Keydown value => Some (keydown value s)
  | Click t =>
      match t with
      | InRow id => if isAttached id s then popoverClicked t s
                    else None
      | _ => popoverClicked t s
      end
  | Open h => Some (open h s)
  | Close => Some (close s, Normal)
  end.

Fixpoint run (es : list Event) (s : State) : option State :=
  match es with
  | [] => Some s
  | e :: es' =>
      match step e s with
      | Some (s', _) => run es' s'
      | None => None
      end
  end.

End Local.

(** The [ItemMatcher] of the first class, [findMatchingItem(input, itemList)],
    lines 96-105.  Its only call, in the [keydown] listener, is commented
    out. *)
Definition findMatchingItem (input : list ascii) (itemList : list PopoverItem)
  : RegExp.error + list PopoverItem :=
  match RegExp.compile (splitJoin (chars ".*?") input) with
  | inr regex =>
      inr (List.filter
             (fun item => RegExp.test regex (toLowerCase (chars (label item))))
             itemList)
  | inl e => inl e
  end.

(** ** Vocabulary of the statements *)

(** The token an input character becomes once escaped. *)
Definition escapedToken (c : ascii) : RegExp.token :=
  if isSyntaxCharacter c then RegExp.KEsc c else RegExp.KChar c.

(** The code unit before the position reached after reading [s], when
    [prev] was the one before [s]. *)
Definition lastOr (prev : option ascii) (s : list ascii) : option ascii :=
  match last s with
  | Some c => Some c
  | None => prev
  end.

(** [q] occurs in [l] as a run of consecutive characters, letter case
    aside, that starts and ends at a word boundary of [l]. *)
Definition OccursAsWord (q l : list ascii) : Prop :=
  exists pre mid post,
    l = pre ++ mid ++ post /\
    map Canonicalize mid = map Canonicalize q /\
    RegExp.boundary (last pre) (mid ++ post) = true /\
    RegExp.boundary (last (pre ++ mid)) post = true.

(** The characters of [q] occur in [l] in order, with arbitrary gaps,
    letter case aside. *)
Fixpoint subsequence_ci (q l : list ascii) : bool :=
  match q, l with
  | [], _ => true
  | _ :: _, [] => false
  | c :: q', d :: l' =>
      if Ascii.eqb (Canonicalize c) (Canonicalize d) then subsequence_ci q' l'
      else subsequence_ci q l'
  end.

(** The rows [renderItems] builds for [its], the first one stamped [index]. *)
Fixpoint rowsFrom (index : nat) (its : list PopoverItem) : list Row :=
  match its with
  | [] => []
  | item :: rest => makeRow index item :: rowsFrom (S index) rest
  end.

(** The local listener read as a subsequence filter: for every item list
    and typed value, the rows shown after a keystroke are those of the items
    whose label has the characters of the trimmed value in order. *)
Definition SubsequenceFilter : Prop :=
  forall (L : list PopoverItem) (value : list ascii),
    attachedRows (fst (Local.keydown value (Local.render L))) =
    rowsFrom 0
      (List.filter (fun item => subsequence_ci (trim value) (chars (label item))) L).

(** An item a host would pass: a label, whether it asks for confirmation,
    and its action. *)
Definition action (l : string) (confirm : bool) (cb : nat) : PopoverItem :=
  {| label := l; icon := ""; confirmationRequired := confirm; hideIf := None;
     onClick := Some (HostAction cb); content := None |}.

(** An item hidden while the host state is not zero. *)
Definition hiddenWhenBusy (l : string) (cb : nat) : PopoverItem :=
  {| label := l; icon := ""; confirmationRequired := false;
     hideIf := Some (fun h => negb (Nat.eqb h 0));
     onClick := Some (HostAction cb); content := None |}.

(** An item whose [onClick] property is undefined. *)
Definition inert (l : string) (confirm : bool) : PopoverItem :=
  {| label := l; icon := ""; confirmationRequired := confirm; hideIf := None;
     onClick := None; content := None |}.

(** What a click handler leaves behind: the callbacks invoked so far, the
    rows attached to the wrapper, and how the handler completed. *)
Definition observe (r : option (State * Completion))
  : option (list Callback * list Row * Completion) :=
  (fun '(s, c) => (calls s, attachedRows s, c)) <$> r.

(** [r'] is [r] with at most the hidden flag changed. *)
Definition keepsButHidden (r r' : Row) : Prop := r' = set_hidden (itemHidden r') r.

(** [r'] is [r], or [r] with the confirmation flag cleared. *)
Definition clearedOrKept (r r' : Row) : Prop := r' = r \/ r' = set_confirm false r.

(** The loop of [close()] on the heap alone. *)
Definition clearAll (ids : list nat) (hp : list Row) : list Row :=
  fold_left (fun hp' id => alter (set_confirm false) id hp') ids hp.

(** [item.confirmationRequired] of the item a row's stamp resolves to in
    [this.items]; false when there is none. *)
Definition resolvesToConfirming (s : State) (row : Row) : bool :=
  match items s !! dataset_index row with
  | Some item => confirmationRequired item
  | None => false
  end.

(** What every state reached from [render()] satisfies, in both versions:
    each row attached to the wrapper is referenced from [itemEls]; [itemEls]
    is at least as long as [items]; and an attached row carries the
    confirmation flag only if its stamp resolves to an item that asks for
    confirmation. *)
Definition wellFormed (s : State) : bool :=
  forallb (fun id => existsb (Nat.eqb id) (itemEls s)) (rowNodes (children s))
  && Nat.leb (length (items s)) (length (itemEls s))
  && forallb (fun id =>
                match heap s !! id with
                | Some row => implb (itemConfirmState row) (resolvesToConfirming s row)
                | None => true
                end) (rowNodes (children s)).

(** The single item of the spec's scenario, rendered, its row armed by a
    first click. *)
Definition armedDelete : State :=
  setConfirmationState 0 (Remote.render [action "Delete" true 1]).

(** Time elapsed since the last keystroke, if there was one, after one
    more event. *)
Definition sinceAfter (since : option nat) (e : Remote.Event) : option nat :=
  match e with
  | Remote.Keydown _ => Some 0
  | Remote.Elapse ms => (fun d => d + ms) <$> since
  | _ => since
  end.

Definition sinceAfterAll (since : option nat) (es : list Remote.Event) : option nat :=
  fold_left sinceAfter es since.

(** In [es], every keystroke but the first comes less than 500 ms after
    the one before it; [since] is the time elapsed since the keystroke
    before [es], if any. *)
Fixpoint burst (since : option nat) (es : list Remote.Event) : bool :=
  match es with
  | [] => true
  | e :: es' =>
      match e, since with
      | Remote.Keydown _, Some d => Nat.ltb d 500
      | _, _ => true
      end && burst (sinceAfter since e) es'
  end.

Definition isKeydown (e : Remote.Event) : bool :=
  match e with Remote.Keydown _ => true | _ => false end.

(** Where the debounce stands [since] after the last keystroke, when
    [cycles] fetch cycles had run before the burst: nothing is pending
    before the first keystroke; after a keystroke its timeout alone is
    pending, due 500 ms after it, until it fires, which it does once and no
    sooner than due. *)
Definition debounced (cycles : nat) (since : option nat) (w : Remote.World) : Prop :=
  match since with
  | None => Remote.timers w = [] /\ Remote.fetchCycles w = cycles
  | Some d =>
      (exists id due,
          Remote.timers w = [(id, due)] /\ due + d = Remote.now w + 500 /\
          interval (Remote.popover w) = Some id /\ Remote.fetchCycles w = cycles)
      \/ (Remote.timers w = [] /\ 500 <= d /\ Remote.fetchCycles w = S cycles)
  end.

(** The spec's scenario: "a" is typed, then "ab" 100 ms later; the second
    timeout fires 500 ms after that and its fetch brings no product. *)
Definition typingAB : list Remote.Event :=
  [Remote.Keydown (chars "a"); Remote.Elapse 100; Remote.Keydown (chars "ab");
   Remote.Elapse 500; Remote.TimerFires 2; Remote.FetchSettles (Remote.Body (Some []))].

(** One keystroke in the remote version followed, 500 ms later, by its
    timeout and by the settlement [o] of the fetch. *)
Definition searchOnce (o : Remote.FetchOutcome) : list Remote.Event :=
  [Remote.Keydown (chars "a"); Remote.Elapse 500; Remote.TimerFires 1;
   Remote.FetchSettles o].

Definition phone : Remote.Product :=
  {| Remote.title := "Phone"; Remote.category := "tech" |}.

(** What a row shows and where it says it stands. *)
Definition stamp (r : Row) : nat * RowBody := (dataset_index r, body r).

(** The rows attached to the wrapper are, flags aside, those of
    [this.items], in order: the view and [this.items] agree. *)
Definition aligned (s : State) : Prop :=
  map stamp (attachedRows s) = map stamp (rowsFrom 0 (items s)).

(** The row of [item] as [open()] should leave it while the host is in
    state [h]. *)
Definition shownRow (h : Host) (index : nat) (item : PopoverItem) : Row :=
  match hideIf item with
  | Some p => set_hidden (p h) (makeRow index item)
  | None => makeRow index item
  end.

Fixpoint shownFrom (h : Host) (index : nat) (its : list PopoverItem) : list Row :=
  match its with
  | [] => []
  | item :: rest => shownRow h index item :: shownFrom h (S index) rest
  end.

(** The flags [open()] writes, in order: which row element, which value. *)
Fixpoint hideWrites (h : Host) (index : nat) (its : list PopoverItem) (els : list nat)
  : list (nat * bool) :=
  match its with
  | [] => []
  | item :: rest =>
      match hideIf item, els !! index with
      | Some p, Some id => (id, p h) :: hideWrites h (S index) rest els
      | _, _ => hideWrites h (S index) rest els
      end
  end.

Definition applyWrites (ws : list (nat * bool)) (hp : list Row) : list Row :=
  fold_left (fun hp' w => alter (set_hidden (snd w)) (fst w) hp') ws hp.

(** The value last written to row [j], if any. *)
Fixpoint lastWrite (ws : list (nat * bool)) (j : nat) : option bool :=
  match ws with
  | [] => None
  | (id, b) :: ws' =>
      match lastWrite ws' j with
      | Some b' => Some b'
      | None => if Nat.eqb id j then Some b else None
      end
  end.

Definition written (o : option bool) (r : Row) : Row :=
  match o with Some b => set_hidden b r | None => r end.

(** The pattern [findMatchingItem] builds from an input free of syntax
    characters: its characters with [.*?] between them. *)
Fixpoint fuzzyTokens (q : list ascii) : list RegExp.token :=
  match q with
  | [] => []
  | [c] => [RegExp.KChar c]
  | c :: q' =>
      RegExp.KChar c :: RegExp.KSyn "." :: RegExp.KSyn "*" :: RegExp.KSyn "?"
        :: fuzzyTokens q'
  end.

Fixpoint fuzzyTerms (q : list ascii) : list RegExp.term :=
  match q with
  | [] => []
  | [c] => [RegExp.TAtom (RegExp.Lit c)]
  | c :: q' =>
      RegExp.TAtom (RegExp.Lit c) :: RegExp.TStar RegExp.Any :: fuzzyTerms q'
  end.

Definition plain (q : list ascii) : bool :=
  forallb (fun c => negb (isSyntaxCharacter c)) q.

Definition singleLine (s : list ascii) : bool :=
  forallb (fun c => negb (RegExp.isLineTerminator c)) s.

(** A property of the widget state that every method of either version
    keeps. *)
Record stable (P : State -> Prop) : Prop := {
  stable_remote_renderItems : forall l s, P s -> P (Remote.renderItems l s);
  stable_local_keydown : forall v s, P s -> P (fst (Local.keydown v s));
  stable_remote_click :
    forall t s s' c, Remote.popoverClicked t s = Some (s', c) -> P s -> P s';
  stable_local_click :
    forall t s s' c, Local.popoverClicked t s = Some (s', c) -> P s -> P s';
  stable_open : forall h s, P s -> P (fst (open h s));
  stable_close : forall s, P s -> P (close s);
  stable_interval : forall v s, P s -> P (set_interval v s);
}.

(** [this.itemEls] refers to every row element created so far, in the
    order of creation. *)
Definition itemElsComplete (s : State) : Prop :=
  itemEls s = seq 0 (length (heap s)).

(** A row as [renderItems] leaves it: shown and not armed. *)
Definition freshRow (r : Row) : bool :=
  negb (itemHidden r) && negb (itemConfirmState r).

Definition nonRows (ns : list Node) : list Node :=
  List.filter (fun n => negb (isRowNode n)) ns.

(** [s] is a state that one of the two versions reaches from
    [new Popover({items: l}).render()] by some sequence of events. *)
Definition reached (l : list PopoverItem) (s : State) : Prop :=
  (exists es, Local.run es (Local.render l) = Some s) \/
  (exists es w, Remote.run es (Remote.boot l) = Some w /\ Remote.popover w = s).

(** The rows attached to the wrapper are the [k] most recently created. *)
Definition newestAttached (s : State) : Prop :=
  exists k, k <= length (heap s) /\
            rowNodes (children s) = seq (length (heap s) - k) k.

(** The value [close()] leaves in row [j] of the heap. *)
Definition cleared (ids : list nat) (j : nat) (r : Row) : Row :=
  if existsb (Nat.eqb j) ids then set_confirm false r else r.

(** [r'] is [r], or [r] with the confirmation flag set. *)
Definition armedOrKept (r r' : Row) : Prop := r' = r \/ r' = set_confirm true r.

(** One search of the remote version that brings the product Phone. *)
Definition phoneSearch : list Remote.Event := searchOnce (Remote.Body (Some [phone])).

(** Every row attached to the wrapper bears a stamp that is a position of
    [this.items]. *)
Definition stampsInRange (s : State) : Prop :=
  forall id row, In id (rowNodes (children s)) -> heap s !! id = Some row ->
                 dataset_index row < length (items s).

(** The number of keystrokes among [es]. *)
Definition keystrokes (es : list Remote.Event) : nat :=
  length (List.filter isKeydown es).

(** At most one timeout is pending, and it is the one [this.interval]
    holds. *)
Definition singlePending (w : Remote.World) : Prop :=
  Remote.timers w = [] \/
  exists id due, Remote.timers w = [(id, due)] /\
                 interval (Remote.popover w) = Some id.

(** [this.items] is the constructor's list, or its first two items followed
    by fetched products. *)
Definition headAndProducts (l : list PopoverItem) (s : State) : Prop :=
  items s = l \/
  exists ps, items s = firstn 2 l ++ map Remote.productItem ps.

(** The same event with the typed value, if it is a keystroke, replaced. *)
Definition retype (f : list ascii -> list ascii) (e : Remote.Event) : Remote.Event :=
  match e with
  | Remote.Keydown value => Remote.Keydown (f value)
  | _ => e
  end.

(** Every code unit of [s] is below 128: the range on which [trim],
    [Canonicalize] and [toLowerCase] above are those of the platform. *)
Definition isASCII (s : list ascii) : bool :=
  forallb (fun c => Nat.ltb (code c) 128) s.

(** Every label of [its] is ASCII text. *)
Definition asciiLabels (its : list PopoverItem) : bool :=
  forallb (fun item => isASCII (chars (label item))) its.

(** * Properties *)

(** ** Pattern construction *)

Lemma not_syntax_not_backslash c :
  isSyntaxCharacter c = false -> c <> "\".
Proof. intros H ->. discriminate H. Qed.

Lemma lex_cons_plain c p :
  c <> "\" ->
  RegExp.lex (c :: p) =
  match RegExp.lex p with
  | inr ks => inr ((if isSyntaxCharacter c then RegExp.KSyn c else RegExp.KChar c) :: ks)
  | inl e => inl e
  end.
Proof.
  intros Hc. destruct c as [[] [] [] [] [] [] [] []]; try reflexivity.
  now elim Hc.
Qed.

Lemma lex_cons_escape c p :
  RegExp.lex ("\" :: c :: p) =
  match RegExp.lex p with
  | inr ks => inr (RegExp.KEsc c :: ks)
  | inl e => inl e
  end.
Proof. reflexivity. Qed.

Lemma lex_escapeRegExp q p ks :
  RegExp.lex p = inr ks ->
  RegExp.lex (escapeRegExp q ++ p) = inr (map escapedToken q ++ ks).
Proof.
  intros Hp. induction q as [|c q IH]; [exact Hp|].
  cbn [escapeRegExp map]. unfold escapedToken at 1.
  destruct (isSyntaxCharacter c) eqn:Hs.
  - change (("\" :: c :: escapeRegExp q) ++ p) with ("\" :: c :: (escapeRegExp q ++ p)).
    rewrite lex_cons_escape, IH. reflexivity.
  - change ((c :: escapeRegExp q) ++ p) with (c :: (escapeRegExp q ++ p)).
    rewrite lex_cons_plain by now apply not_syntax_not_backslash.
    rewrite IH, Hs. reflexivity.
Qed.

Lemma atomOf_escapedToken c :
  RegExp.atomOf (escapedToken c) = Some (RegExp.Lit c).
Proof.
  unfold escapedToken. destruct (isSyntaxCharacter c) eqn:Hs;
    cbn [RegExp.atomOf]; [|reflexivity].
  now rewrite Hs.
Qed.

Lemma isStar_escapedToken c : RegExp.isStar (escapedToken c) = false.
Proof. unfold escapedToken. now destruct (isSyntaxCharacter c). Qed.

Lemma parse_escapedToken c k ks :
  RegExp.isStar k = false ->
  RegExp.parse (escapedToken c :: k :: ks) =
  RegExp.cons_term (RegExp.TAtom (RegExp.Lit c)) (RegExp.parse (k :: ks)).
Proof.
  intros Hk. unfold escapedToken.
  destruct (isSyntaxCharacter c) eqn:Hs.
  - destruct c as [[] [] [] [] [] [] [] []]; try discriminate Hs;
      cbn -[RegExp.parse]; rewrite ?Hk;
      cbn [RegExp.parse RegExp.atomOf isSyntaxCharacter existsb Ascii.eqb Bool.eqb orb];
      rewrite Hk; reflexivity.
  - cbn [RegExp.parse RegExp.atomOf]. rewrite Hk. reflexivity.
Qed.

Lemma parse_literals q :
  RegExp.parse (map escapedToken q ++ [RegExp.KEsc "b"]) =
  inr (map (fun c => RegExp.TAtom (RegExp.Lit c)) q ++ [RegExp.TWordB]).
Proof.
  induction q as [|c q IH]; [reflexivity|].
  cbn [map app].
  destruct (map escapedToken q ++ [RegExp.KEsc "b"]) as [|k ks] eqn:E.
  { destruct q; discriminate E. }
  rewrite parse_escapedToken.
  - rewrite IH. reflexivity.
  - destruct q as [|c' q']; cbn in E; injection E as <- _;
      [reflexivity | apply isStar_escapedToken].
Qed.

(** The pattern text built by the local [keydown] listener always compiles,
    and to a literal: every typed character stands for itself. *)
Lemma compile_wordPattern q :
  RegExp.compile (Local.wordPattern (escapeRegExp q)) =
  inr (RegExp.TWordB ::
       map (fun c => RegExp.TAtom (RegExp.Lit c)) q ++ [RegExp.TWordB]).
Proof.
  unfold RegExp.compile, Local.wordPattern.
  change (["\"; "b"] ++ escapeRegExp q ++ ["\"; "b"])
    with ("\" :: "b" :: (escapeRegExp q ++ ["\"; "b"])).
  rewrite lex_cons_escape.
  rewrite (lex_escapeRegExp q ["\"; "b"] [RegExp.KEsc "b"]) by reflexivity.
  change (RegExp.parse (RegExp.KEsc "b" :: map escapedToken q ++ [RegExp.KEsc "b"]))
    with (RegExp.cons_term RegExp.TWordB
            (RegExp.parse (map escapedToken q ++ [RegExp.KEsc "b"]))).
  rewrite parse_literals. reflexivity.
Qed.

(** ** Matching *)

Lemma lastOr_nil prev : lastOr prev [] = prev.
Proof. reflexivity. Qed.

Lemma lastOr_cons prev c s : lastOr prev (c :: s) = lastOr (Some c) s.
Proof.
  unfold lastOr. destruct s as [|d s]; [reflexivity|].
  change (last (c :: d :: s)) with (last (d :: s)).
  destruct (last (d :: s)) eqn:E; [reflexivity|].
  apply last_None in E. discriminate E.
Qed.

Lemma lastOr_app prev s t : lastOr prev (s ++ t) = lastOr (lastOr prev s) t.
Proof.
  revert prev. induction s as [|c s IH]; intros prev; [reflexivity|].
  cbn [app]. rewrite !lastOr_cons. apply IH.
Qed.

Lemma lastOr_None s : lastOr None s = last s.
Proof. unfold lastOr. now destruct (last s). Qed.

Lemma Canonicalize_eqb c d :
  Ascii.eqb (Canonicalize c) (Canonicalize d) = true <-> Canonicalize d = Canonicalize c.
Proof. rewrite Ascii.eqb_eq. split; congruence. Qed.

Lemma matchHere_literals q ts prev s :
  RegExp.matchHere (map (fun c => RegExp.TAtom (RegExp.Lit c)) q ++ ts) prev s = true <->
  exists mid post,
    s = mid ++ post /\ map Canonicalize mid = map Canonicalize q /\
    RegExp.matchHere ts (lastOr prev mid) post = true.
Proof.
  revert prev s. induction q as [|c q IH]; intros prev s.
  - cbn [map app]. split.
    + intros H. exists [], s. auto.
    + intros (mid & post & -> & Hm & H). destruct mid; [exact H | discriminate Hm].
  - cbn [map app RegExp.matchHere]. destruct s as [|d s].
    + split; [discriminate|].
      intros (mid & post & E & Hm & _). destruct mid; [discriminate Hm | discriminate E].
    + cbn [RegExp.atomMatches]. rewrite andb_true_iff, Canonicalize_eqb, IH. split.
      * intros (Hd & mid & post & -> & Hm & H).
        exists (d :: mid), post. rewrite lastOr_cons. cbn [map]. repeat split; [congruence | exact H].
      * intros (mid & post & E & Hm & H). destruct mid as [|d' mid]; [discriminate Hm|].
        cbn [app map] in E, Hm. injection E as <- ->. injection Hm as Hd Hm.
        rewrite lastOr_cons in H. split; [exact Hd|]. exists mid, post. auto.
Qed.

Lemma matchFrom_iff ts prev s :
  RegExp.matchFrom ts prev s = true <->
  exists pre rest, s = pre ++ rest /\ RegExp.matchHere ts (lastOr prev pre) rest = true.
Proof.
  revert prev. induction s as [|c s IH]; intros prev; cbn [RegExp.matchFrom].
  - rewrite orb_false_r. split.
    + intros H. exists [], []. auto.
    + intros (pre & rest & E & H). symmetry in E. apply app_eq_nil in E as [-> ->]. exact H.
  - rewrite orb_true_iff, IH. split.
    + intros [H | (pre & rest & -> & H)].
      * exists [], (c :: s). auto.
      * exists (c :: pre), rest. rewrite lastOr_cons. auto.
    + intros (pre & rest & E & H). destruct pre as [|c' pre].
      * left. cbn [app] in E. subst rest. exact H.
      * right. cbn [app] in E. injection E as <- ->.
        rewrite lastOr_cons in H. exists pre, rest. auto.
Qed.

(** What the compiled pattern of the local listener accepts. *)
Lemma test_wordPattern q l :
  RegExp.test
    (RegExp.TWordB :: map (fun c => RegExp.TAtom (RegExp.Lit c)) q ++ [RegExp.TWordB]) l
  = true <-> OccursAsWord q l.
Proof.
  unfold RegExp.test, OccursAsWord. rewrite matchFrom_iff. split.
  - intros (pre & rest & -> & H). cbn [RegExp.matchHere] in H.
    apply andb_true_iff in H as [Hb H]. apply matchHere_literals in H.
    destruct H as (mid & post & -> & Hm & H). cbn [RegExp.matchHere] in H.
    rewrite andb_true_r in H. rewrite lastOr_None in *.
    exists pre, mid, post. rewrite last_app. unfold lastOr in H. auto.
  - intros (pre & mid & post & -> & Hm & Hb1 & Hb2).
    exists pre, (mid ++ post). split; [reflexivity|].
    cbn [RegExp.matchHere]. rewrite lastOr_None, Hb1. cbn [andb].
    apply matchHere_literals. exists mid, post. repeat split; [exact Hm|].
    cbn [RegExp.matchHere]. rewrite andb_true_r.
    rewrite last_app in Hb2. exact Hb2.
Qed.

Lemma OccursAsWord_empty l :
  OccursAsWord [] l <-> existsb isWordChar l = true.
Proof.
  unfold OccursAsWord. split.
  - intros (pre & mid & post & -> & Hm & Hb & _).
    destruct mid; [|discriminate Hm]. cbn [app] in *.
    rewrite existsb_app. unfold RegExp.boundary in Hb.
    destruct (RegExp.isWord (last pre)) eqn:Hp.
    + destruct (last pre) as [c|] eqn:El; [|discriminate Hp].
      apply last_Some in El as [pre' ->]. rewrite existsb_app. cbn in *.
      rewrite Hp. now rewrite orb_true_r.
    + destruct post as [|c post]; [discriminate Hb|]. cbn in *.
      rewrite Hb. now rewrite orb_true_r.
  - intros H.
    assert (G : forall prev, RegExp.isWord prev = false ->
              exists pre post, l = pre ++ post /\
                RegExp.boundary (lastOr prev pre) post = true).
    { induction l as [|c l IH]; [discriminate H|]. intros prev Hp.
      cbn [existsb] in H. destruct (isWordChar c) eqn:Hc.
      - exists [], (c :: l). split; [reflexivity|].
        unfold RegExp.boundary. cbn. now rewrite Hp, Hc.
      - destruct (IH H (Some c) Hc) as (pre & post & -> & Hb).
        exists (c :: pre), post. rewrite lastOr_cons. auto. }
    destruct (G None eq_refl) as (pre & post & -> & Hb).
    rewrite lastOr_None in Hb.
    exists pre, [], post. cbn [app]. rewrite app_nil_r. auto.
Qed.

(** ** Rendering *)

Lemma rowNodes_app a b : rowNodes (a ++ b) = rowNodes a ++ rowNodes b.
Proof.
  induction a as [|[|id] a IH]; cbn [app rowNodes]; [reflexivity | exact IH | now rewrite IH].
Qed.

Lemma rowNodes_map_RowNode ids : rowNodes (map RowNode ids) = ids.
Proof. induction ids as [|i ids IH]; cbn; [reflexivity | now rewrite IH]. Qed.

Lemma rowNodes_removed ns :
  rowNodes (List.filter (fun n => negb (isRowNode n)) ns) = [].
Proof. induction ns as [|[|id] ns IH]; cbn; auto. Qed.

Lemma length_rowsFrom i l : length (rowsFrom i l) = length l.
Proof. revert i. induction l as [|x l IH]; intros i; cbn; [reflexivity | now rewrite IH]. Qed.

Lemma lookup_rowsFrom i l k :
  rowsFrom i l !! k = makeRow (i + k) <$> l !! k.
Proof.
  revert i k. induction l as [|x l IH]; intros i k; [now destruct k|].
  destruct k as [|k]; cbn.
  - now rewrite Nat.add_0_r.
  - change (rowsFrom (S i) l !! k = makeRow (i + S k) <$> l !! k).
    rewrite IH. now rewrite Nat.add_succ_r.
Qed.

(** The loop of [renderItems] in closed form: the new rows go to the end of
    the heap, and references to them to the end of the wrapper's children
    and of [itemEls]. *)
Lemma appendRows_eq i l s :
  appendRows i l s =
  set_itemEls (itemEls s ++ seq (length (heap s)) (length l))
    (set_children (children s ++ map RowNode (seq (length (heap s)) (length l)))
       (set_heap (heap s ++ rowsFrom i l) s)).
Proof.
  revert i s. induction l as [|x l IH]; intros i s.
  - destruct s. cbn. unfold set_itemEls, set_children, set_heap. cbn.
    now rewrite !app_nil_r.
  - cbn [appendRows]. rewrite IH. destruct s as [its els iv hp ch op cs].
    unfold set_itemEls, set_children, set_heap. cbn.
    rewrite !length_app. cbn [length]. rewrite Nat.add_1_r.
    now rewrite <- !app_assoc.
Qed.

Lemma omap_lookup_appended (H R : list Row) :
  omap (fun id => (H ++ R) !! id) (seq (length H) (length R)) = R.
Proof.
  revert H. induction R as [|r R IH]; intros H; [reflexivity|].
  cbn [length seq].
  change (omap ?f (?a :: ?l))
    with (match f a with Some y => y :: omap f l | None => omap f l end).
  cbn beta. rewrite lookup_app_r by lia. rewrite Nat.sub_diag. cbn [lookup list_lookup].
  specialize (IH (H ++ [r])). rewrite length_app in IH. cbn [length] in IH.
  rewrite Nat.add_1_r, <- app_assoc in IH. cbn [app] in IH.
  now rewrite IH.
Qed.

Lemma remote_renderItems_eq l s :
  Remote.renderItems l s =
  {| items := l;
     itemEls := itemEls s ++ seq (length (heap s)) (length l);
     interval := interval s;
     heap := heap s ++ rowsFrom 0 l;
     children := List.filter (fun n => negb (isRowNode n)) (children s)
                 ++ map RowNode (seq (length (heap s)) (length l));
     popoverOpened := popoverOpened s;
     calls := calls s |}.
Proof. unfold Remote.renderItems. rewrite appendRows_eq. reflexivity. Qed.

Lemma local_renderItems_eq l s :
  Local.renderItems l s =
  {| items := items s;
     itemEls := itemEls s ++ seq (length (heap s)) (length l);
     interval := interval s;
     heap := heap s ++ rowsFrom 0 l;
     children := List.filter (fun n => negb (isRowNode n)) (children s)
                 ++ map RowNode (seq (length (heap s)) (length l));
     popoverOpened := popoverOpened s;
     calls := calls s |}.
Proof. unfold Local.renderItems. rewrite appendRows_eq. reflexivity. Qed.

Lemma remote_renderItems_rowNodes l s :
  rowNodes (children (Remote.renderItems l s)) = seq (length (heap s)) (length l).
Proof.
  rewrite remote_renderItems_eq. cbn [children].
  now rewrite rowNodes_app, rowNodes_removed, rowNodes_map_RowNode.
Qed.

Lemma local_renderItems_rowNodes l s :
  rowNodes (children (Local.renderItems l s)) = seq (length (heap s)) (length l).
Proof.
  rewrite local_renderItems_eq. cbn [children].
  now rewrite rowNodes_app, rowNodes_removed, rowNodes_map_RowNode.
Qed.

(** After [renderItems(newItems)] the rows attached to the wrapper are those
    built from [newItems], in order, stamped 0, 1, 2, ... *)
Lemma remote_renderItems_attached l s :
  attachedRows (Remote.renderItems l s) = rowsFrom 0 l.
Proof.
  unfold attachedRows. rewrite remote_renderItems_rowNodes.
  rewrite remote_renderItems_eq. cbn [heap].
  rewrite <- (length_rowsFrom 0 l). apply omap_lookup_appended.
Qed.

Lemma local_renderItems_attached l s :
  attachedRows (Local.renderItems l s) = rowsFrom 0 l.
Proof.
  unfold attachedRows. rewrite local_renderItems_rowNodes.
  rewrite local_renderItems_eq. cbn [heap].
  rewrite <- (length_rowsFrom 0 l). apply omap_lookup_appended.
Qed.

(** ** The local search *)

(** C1 (as the claim states it, refuted): the rows shown after a keystroke in
    the local version are not the items whose label contains the query as a
    subsequence.  With the single item "Delete" and the typed value "del",
    the label contains d, e, l in order, yet no row is shown. *)
Lemma local_filter_is_not_subsequence : ~ SubsequenceFilter.
Proof.
  intros H.
  specialize (H [action "Delete" true 1] (chars "del")).
  vm_compute in H. discriminate H.
Qed.

Example local_empty_query_drops_wordless_label :
  attachedRows (fst (Local.keydown [] (Local.render [action "--" false 1; action "Copy" false 2])))
  = rowsFrom 0 [action "Copy" false 2].
Proof. vm_compute. reflexivity. Qed.

(** C1 (amended): in the local version, for a typed value and labels of
    ASCII characters, a keystroke completes normally, leaves [this.items] as
    it was, and shows, in their order in [this.items] and stamped from 0,
    exactly the items whose label contains the trimmed value as a run of
    consecutive characters, letter case aside and every typed character
    standing for itself, that begins and ends at a word boundary of the
    label.  For the empty value these are the items whose label has a word
    character. *)
Theorem local_keydown_shows_word_matches (value : list ascii) (s : State) :
  isASCII value = true ->
  asciiLabels (items s) = true ->
  exists shown keep,
    Local.keydown value s = (Local.renderItems shown s, Normal) /\
    items (Local.renderItems shown s) = items s /\
    attachedRows (Local.renderItems shown s) = rowsFrom 0 shown /\
    shown = List.filter keep (items s) /\
    (forall item, keep item = true <->
                  OccursAsWord (trim value) (chars (label item))) /\
    (trim value = [] ->
     forall item, keep item = existsb isWordChar (chars (label item))).
Proof.
  intros _ _.
  set (reg := RegExp.TWordB ::
              map (fun c => RegExp.TAtom (RegExp.Lit c)) (trim value) ++ [RegExp.TWordB]).
  set (keep := fun item : PopoverItem => RegExp.test reg (chars (label item))).
  exists (List.filter keep (items s)), keep.
  split; [|split; [|split; [|split; [|split]]]].
  - unfold Local.keydown. rewrite compile_wordPattern. reflexivity.
  - rewrite local_renderItems_eq. reflexivity.
  - apply local_renderItems_attached.
  - reflexivity.
  - intros item. apply test_wordPattern.
  - intros Hq item.
    destruct (existsb isWordChar (chars (label item))) eqn:E.
    + apply test_wordPattern. rewrite Hq. now apply OccursAsWord_empty.
    + destruct (keep item) eqn:K; [|reflexivity].
      apply test_wordPattern in K. rewrite Hq in K.
      apply OccursAsWord_empty in K. congruence.
Qed.

Lemma local_keydown_shows_word_matches_witness :
  isASCII (chars " COPY ") = true /\
  asciiLabels (items (Local.render [action "Rename" false 1; action "Copy" false 2])) = true /\
  exists shown keep,
    Local.keydown (chars " COPY ")
      (Local.render [action "Rename" false 1; action "Copy" false 2])
    = (Local.renderItems shown
         (Local.render [action "Rename" false 1; action "Copy" false 2]), Normal) /\
    attachedRows
      (Local.renderItems shown
         (Local.render [action "Rename" false 1; action "Copy" false 2]))
    = rowsFrom 0 shown /\
    shown = List.filter keep
              (items (Local.render [action "Rename" false 1; action "Copy" false 2])) /\
    keep (action "Copy" false 2) = true.
Proof.
  split; [reflexivity|]. split; [reflexivity|].
  destruct (local_keydown_shows_word_matches (chars " COPY ")
              (Local.render [action "Rename" false 1; action "Copy" false 2])
              eq_refl eq_refl) as (shown & keep & E & _ & Ea & Es & Hk & _).
  exists shown, keep. split; [exact E|]. split; [exact Ea|]. split; [exact Es|].
  apply Hk. exists [], (chars "Copy"), []. repeat split.
Defined.

(** ** Clicks *)

(** C9: a click whose target has no row element among its ancestors (the
    wrapper's padding, the search field) completes normally and leaves the
    whole state, confirmation flags and invoked callbacks included, as it
    was, in both versions. *)
Theorem click_outside_rows_is_ignored (t : Target) (s : State) :
  closest t = None ->
  Remote.popoverClicked t s = Some (s, Normal) /\
  Local.popoverClicked t s = Some (s, Normal).
Proof.
  intros H. unfold Remote.popoverClicked, Local.popoverClicked.
  rewrite H. split; reflexivity.
Qed.

Lemma click_outside_rows_is_ignored_witness :
  closest OnSearch = None /\
  Remote.popoverClicked OnSearch (Remote.render [action "Delete" true 1])
    = Some (Remote.render [action "Delete" true 1], Normal) /\
  Local.popoverClicked OnSearch (Local.render [action "Delete" true 1])
    = Some (Local.render [action "Delete" true 1], Normal).
Proof.
  split; [reflexivity|].
  apply (click_outside_rows_is_ignored OnSearch). reflexivity.
Defined.

(** C10: when a click on a row resolves to an item whose [onClick] is
    undefined and the click is one that calls it (the item asks for no
    confirmation, or the row is already armed), [popoverClicked] throws a
    TypeError in both versions, leaving the state as it was. *)
Theorem click_without_onClick_throws (id : nat) (row : Row) (item : PopoverItem) (s : State) :
  heap s !! id = Some row ->
  items s !! dataset_index row = Some item ->
  onClick item = None ->
  confirmationRequired item = false \/ itemConfirmState row = true ->
  Remote.popoverClicked (InRow id) s
    = Some (s, Throw (TypeError "item.onClick is not a function")) /\
  Local.popoverClicked (InRow id) s
    = Some (s, Throw (TypeError "item.onClick is not a function")).
Proof.
  intros Hrow Hitem Hcb Hfire.
  unfold Remote.popoverClicked, Local.popoverClicked, callOnClick, hasConfirmationState.
  cbn [closest]. rewrite Hrow, Hitem, Hcb. cbn [from_option].
  destruct Hfire as [-> | ->]; cbn [andb negb]; rewrite ?andb_false_r; auto.
Qed.

Lemma click_without_onClick_throws_witness :
  Remote.popoverClicked (InRow 0) (Remote.render [inert "Broken" false])
    = Some (Remote.render [inert "Broken" false],
            Throw (TypeError "item.onClick is not a function")) /\
  Local.popoverClicked (InRow 0) (Remote.render [inert "Broken" false])
    = Some (Remote.render [inert "Broken" false],
            Throw (TypeError "item.onClick is not a function")).
Proof.
  apply (click_without_onClick_throws 0 (makeRow 0 (inert "Broken" false))
           (inert "Broken" false));
    [reflexivity | reflexivity | reflexivity | left; reflexivity].
Defined.

(** The arming click of a row whose item asks for confirmation calls
    nothing, so it completes normally even when [onClick] is undefined. *)
Example arming_click_without_onClick :
  observe (Local.popoverClicked (InRow 0) (Local.render [inert "Broken" true]))
  = Some ([], [set_confirm true (makeRow 0 (inert "Broken" true))], Normal).
Proof. reflexivity. Qed.

(** C2 (defect of the local version): [renderItems] of the local version
    does not assign [this.items], so after a filtering keystroke a row's
    stamped index is looked up in the unfiltered list.  With the items
    Rename and Copy and the typed value "copy", the one row shown is Copy's,
    stamped 0, and a click on it invokes Rename's [onClick]. *)
Theorem local_click_after_filter_resolves_other_item :
  let L := [action "Rename" false 1; action "Copy" false 2] in
  let s := fst (Local.keydown (chars "copy") (Local.render L)) in
  rowNodes (children s) = [2] /\
  attachedRows s = rowsFrom 0 [action "Copy" false 2] /\
  observe (Local.popoverClicked (InRow 2) s)
    = Some ([HostAction 1], rowsFrom 0 [action "Copy" false 2], Normal).
Proof. vm_compute. auto. Qed.

(** C4 (same defect as C2): in the local version, after the typed value
    "delete" has filtered the items Rename and Delete down to Delete, which
    asks for confirmation, the first click on Delete's row does not arm it
    and invokes Rename's [onClick] at once; so does the second. *)
Theorem local_click_after_filter_skips_confirmation :
  let L := [action "Rename" false 1; action "Delete" true 2] in
  let s := fst (Local.keydown (chars "delete") (Local.render L)) in
  attachedRows s = rowsFrom 0 [action "Delete" true 2] /\
  observe (Local.popoverClicked (InRow 2) s)
    = Some ([HostAction 1], rowsFrom 0 [action "Delete" true 2], Normal) /\
  observe (Local.popoverClicked (InRow 2) s ≫= fun r => Local.popoverClicked (InRow 2) (fst r))
    = Some ([HostAction 1; HostAction 1], rowsFrom 0 [action "Delete" true 2], Normal).
Proof. vm_compute. auto. Qed.

(** ** Confirmation, [open()] and [close()] *)

Lemma click_arms id row item s :
  heap s !! id = Some row ->
  items s !! dataset_index row = Some item ->
  confirmationRequired item = true ->
  itemConfirmState row = false ->
  Remote.popoverClicked (InRow id) s = Some (setConfirmationState id s, Normal) /\
  Local.popoverClicked (InRow id) s = Some (setConfirmationState id s, Normal).
Proof.
  intros Hrow Hitem Hc Ha.
  unfold Remote.popoverClicked, Local.popoverClicked, hasConfirmationState.
  cbn [closest]. rewrite Hrow, Hitem. cbn [from_option]. rewrite Hc, Ha. auto.
Qed.

Lemma click_fires id row item cb s :
  heap s !! id = Some row ->
  items s !! dataset_index row = Some item ->
  confirmationRequired item = false \/ itemConfirmState row = true ->
  onClick item = Some cb ->
  Remote.popoverClicked (InRow id) s = Some (set_calls (calls s ++ [cb]) s, Normal) /\
  Local.popoverClicked (InRow id) s = Some (set_calls (calls s ++ [cb]) s, Normal).
Proof.
  intros Hrow Hitem Hfire Hcb.
  unfold Remote.popoverClicked, Local.popoverClicked, callOnClick, hasConfirmationState.
  cbn [closest]. rewrite Hrow, Hitem, Hcb. cbn [from_option].
  destruct Hfire as [-> | ->]; cbn [andb negb]; rewrite ?andb_false_r; auto.
Qed.

Lemma keepsButHidden_refl r : keepsButHidden r r.
Proof. unfold keepsButHidden. now destruct r. Qed.

Lemma keepsButHidden_set b r : keepsButHidden r (set_hidden b r).
Proof. reflexivity. Qed.

Lemma keepsButHidden_trans r1 r2 r3 :
  keepsButHidden r1 r2 -> keepsButHidden r2 r3 -> keepsButHidden r1 r3.
Proof. unfold keepsButHidden. intros H12 H23. rewrite H23 at 1. now rewrite H12. Qed.

Lemma keepsButHidden_fields r r' :
  keepsButHidden r r' ->
  dataset_index r' = dataset_index r /\ body r' = body r /\
  itemConfirmState r' = itemConfirmState r.
Proof. unfold keepsButHidden. intros ->. auto. Qed.

Lemma clearedOrKept_trans r1 r2 r3 :
  clearedOrKept r1 r2 -> clearedOrKept r2 r3 -> clearedOrKept r1 r3.
Proof. unfold clearedOrKept. intros [-> | ->] [-> | ->]; auto. Qed.

Lemma clearedOrKept_fields r r' :
  clearedOrKept r r' ->
  dataset_index r' = dataset_index r /\ body r' = body r /\
  itemHidden r' = itemHidden r /\
  (itemConfirmState r = false -> itemConfirmState r' = false).
Proof. intros [-> | ->]; auto. Qed.

Lemma Forall2_refl_rows (R : Row -> Row -> Prop) (hp : list Row) :
  (forall r, R r r) -> Forall2 R hp hp.
Proof. intros HR. apply Forall_Forall2_diag, Forall_forall. auto. Qed.

(** [openRows] never throws when [itemEls] reaches as far as the items it
    walks, and changes nothing but hidden flags. *)
Lemma openRows_spec h l i s :
  i + length l <= length (itemEls s) ->
  exists hp, openRows h i l s = (set_heap hp s, Normal) /\
             Forall2 keepsButHidden (heap s) hp.
Proof.
  revert i s. induction l as [|item l IH]; intros i s Hlen.
  - exists (heap s). split; [now destruct s|].
    apply Forall2_refl_rows, keepsButHidden_refl.
  - cbn [openRows]. cbn [length] in Hlen. destruct (hideIf item) as [p|].
    + destruct (lookup_lt_is_Some_2 (itemEls s) i ltac:(lia)) as [id Hid].
      rewrite Hid.
      destruct (IH (S i) (toggleHidden id (p h) s) ltac:(cbn; lia)) as (hp & E & F).
      exists hp. split; [rewrite E; reflexivity|].
      eapply Forall2_trans; [apply keepsButHidden_trans | | exact F].
      cbn [toggleHidden heap set_heap]. apply Forall2_alter_r.
      * apply Forall2_refl_rows, keepsButHidden_refl.
      * intros x y _ _ Hxy. eapply keepsButHidden_trans; [exact Hxy|].
        apply keepsButHidden_set.
    + apply IH. lia.
Qed.

Lemma open_spec h s :
  length (items s) <= length (itemEls s) ->
  exists hp, open h s = (set_popoverOpened true (set_heap hp s), Normal) /\
             Forall2 keepsButHidden (heap s) hp.
Proof.
  intros Hlen. destruct (openRows_spec h (items s) 0 s Hlen) as (hp & E & F).
  exists hp. unfold open. rewrite E. auto.
Qed.

Lemma clearAll_related ids hp : Forall2 clearedOrKept hp (clearAll ids hp).
Proof.
  revert hp. induction ids as [|id ids IH]; intros hp; cbn [clearAll fold_left].
  - apply Forall2_refl_rows. now left.
  - eapply Forall2_trans; [apply clearedOrKept_trans | | apply IH].
    apply Forall2_alter_r; [apply Forall2_refl_rows; now left|].
    intros x y _ _ [-> | ->]; now right.
Qed.

Lemma clearAll_clears ids hp id row :
  In id ids -> clearAll ids hp !! id = Some row -> itemConfirmState row = false.
Proof.
  revert hp. induction ids as [|a ids IH]; intros hp Hin Hrow; [destruct Hin|].
  cbn [clearAll fold_left] in Hrow.
  destruct (Nat.eq_dec a id) as [-> | Hne].
  - destruct (Forall2_lookup_r _ _ _ _ _ (clearAll_related ids (alter (set_confirm false) id hp)) Hrow)
      as (r0 & Hr0 & Hrel).
    rewrite list_lookup_alter_eq in Hr0.
    destruct (hp !! id) as [r|]; [|discriminate Hr0]. injection Hr0 as <-.
    now apply clearedOrKept_fields in Hrel as (_ & _ & _ & ->).
  - destruct Hin as [-> | Hin]; [now elim Hne|]. eapply IH; eauto.
Qed.

Lemma close_eq s :
  close s = set_heap (clearAll (itemEls s) (heap s)) (set_popoverOpened false s).
Proof.
  unfold close, clearAll.
  assert (G : forall ids s0,
             fold_left (fun s' id => clearConfirmationState id s') ids s0 =
             set_heap (fold_left (fun hp' id => alter (set_confirm false) id hp') ids (heap s0)) s0).
  { induction ids as [|id ids IH]; intros s0; cbn [fold_left]; [now destruct s0|].
    rewrite IH. reflexivity. }
  rewrite G. reflexivity.
Qed.

Lemma wellFormed_iff s :
  wellFormed s = true <->
  (forall id, In id (rowNodes (children s)) -> In id (itemEls s)) /\
  length (items s) <= length (itemEls s) /\
  (forall id row, In id (rowNodes (children s)) -> heap s !! id = Some row ->
                  itemConfirmState row = true -> resolvesToConfirming s row = true).
Proof.
  unfold wellFormed. rewrite !andb_true_iff, !forallb_forall, Nat.leb_le.
  split; [intros ((H1 & H2) & H3) | intros (H1 & H2 & H4)].
  - split; [|split; [exact H2|]].
    + intros id Hid. apply H1, existsb_exists in Hid as (x & Hx & E).
      apply Nat.eqb_eq in E. now subst x.
    + intros id row Hid Hrow Ha. specialize (H3 id Hid). rewrite Hrow, Ha in H3. exact H3.
  - split; [split; [|exact H2]|].
    + intros id Hid. apply existsb_exists. exists id. split; [auto | apply Nat.eqb_refl].
    + intros id Hid. destruct (heap s !! id) as [row|] eqn:Hrow; [|reflexivity].
      destruct (itemConfirmState row) eqn:Ha; [|reflexivity].
      cbn [implb]. eapply H4; eauto.
Qed.

Lemma resolvesToConfirming_item s row :
  resolvesToConfirming s row = true ->
  exists item, items s !! dataset_index row = Some item /\ confirmationRequired item = true.
Proof.
  unfold resolvesToConfirming. destruct (items s !! dataset_index row) as [item|]; [|discriminate].
  eauto.
Qed.

(** C5: [close()] removes the open flag and leaves no row, attached or merely
    kept in [itemEls], with the confirmation flag, whichever rows carried
    it; and a row that was armed before [close()] is, after [close()] and a
    new [open()], armed again by the next click on it, which invokes no
    callback, in both versions. *)
Theorem close_resets_confirmation (s : State) :
  wellFormed s = true ->
  opened (close s) = false /\
  (forall id row',
     In id (rowNodes (children (close s))) \/ In id (itemEls (close s)) ->
     heap (close s) !! id = Some row' -> itemConfirmState row' = false) /\
  (forall h id row,
     In id (rowNodes (children s)) -> heap s !! id = Some row ->
     itemConfirmState row = true ->
     exists s1,
       open h (close s) = (s1, Normal) /\ opened s1 = true /\
       Remote.popoverClicked (InRow id) s1 = Some (setConfirmationState id s1, Normal) /\
       Local.popoverClicked (InRow id) s1 = Some (setConfirmationState id s1, Normal) /\
       calls (setConfirmationState id s1) = calls s /\
       exists row2, heap (setConfirmationState id s1) !! id = Some row2 /\
                    itemConfirmState row2 = true).
Proof.
  intros Hwf. apply wellFormed_iff in Hwf as (Hlisted & Hlen & Harmed).
  rewrite close_eq. split; [reflexivity|]. split.
  - cbn [children itemEls heap set_heap set_popoverOpened].
    intros id row' [Hid | Hid] Hrow;
      [apply Hlisted in Hid|]; exact (clearAll_clears _ _ _ _ Hid Hrow).
  - intros h id row Hid Hrow Ha.
    destruct (resolvesToConfirming_item s row (Harmed id row Hid Hrow Ha))
      as (item & Hitem & Hc).
    set (sc := set_heap (clearAll (itemEls s) (heap s)) (set_popoverOpened false s)).
    destruct (open_spec h sc Hlen) as (hp & Eopen & Frel).
    exists (set_popoverOpened true (set_heap hp sc)). split; [exact Eopen|].
    split; [reflexivity|].
    destruct (Forall2_lookup_l _ _ _ _ _ (clearAll_related (itemEls s) (heap s)) Hrow)
      as (rc & Hrc & Rc).
    destruct (Forall2_lookup_l _ _ _ _ _ Frel Hrc) as (ro & Hro & Ro).
    apply keepsButHidden_fields in Ro as (Ri & _ & Ra).
    pose proof (clearAll_clears _ _ _ _ (Hlisted id Hid) Hrc) as Hcleared.
    apply clearedOrKept_fields in Rc as (Rci & _).
    assert (Hres : items (set_popoverOpened true (set_heap hp sc)) !! dataset_index ro
                   = Some item).
    { cbn [items set_popoverOpened set_heap sc]. now rewrite Ri, Rci. }
    assert (Hun : itemConfirmState ro = false) by congruence.
    destruct (click_arms id ro item (set_popoverOpened true (set_heap hp sc)) Hro Hres Hc Hun)
      as [ER EL].
    split; [exact ER|]. split; [exact EL|]. split; [reflexivity|].
    exists (set_confirm true ro). split; [|reflexivity].
    cbn [setConfirmationState heap set_heap set_popoverOpened].
    rewrite list_lookup_alter_eq.
    cbn [heap set_heap set_popoverOpened] in Hro. now rewrite Hro.
Qed.

Lemma close_resets_confirmation_witness :
  wellFormed armedDelete = true /\
  (attachedRows armedDelete = [set_confirm true (makeRow 0 (action "Delete" true 1))] /\
   opened (close armedDelete) = false /\
   attachedRows (close armedDelete) = [makeRow 0 (action "Delete" true 1)]) /\
  exists s1,
    open 0 (close armedDelete) = (s1, Normal) /\ opened s1 = true /\
    Remote.popoverClicked (InRow 0) s1 = Some (setConfirmationState 0 s1, Normal) /\
    Local.popoverClicked (InRow 0) s1 = Some (setConfirmationState 0 s1, Normal) /\
    calls (setConfirmationState 0 s1) = calls armedDelete /\
    exists row2, heap (setConfirmationState 0 s1) !! 0 = Some row2 /\
                 itemConfirmState row2 = true.
Proof.
  split; [reflexivity|]. split; [repeat split|].
  apply (proj2 (proj2 (close_resets_confirmation armedDelete eq_refl))
           0 0 (set_confirm true (makeRow 0 (action "Delete" true 1))));
    [left; reflexivity | reflexivity | reflexivity].
Defined.

(** ** Every reachable state is well formed *)

Lemma rendered_rows_wellFormed (s s' : State) (l : list PopoverItem) :
  rowNodes (children s') = seq (length (heap s)) (length l) ->
  itemEls s' = itemEls s ++ seq (length (heap s)) (length l) ->
  heap s' = heap s ++ rowsFrom 0 l ->
  length (items s') <= length (itemEls s) + length l ->
  wellFormed s' = true.
Proof.
  intros Hch Hels Hhp Hlen. apply wellFormed_iff. rewrite Hch, Hels. split; [|split].
  - intros id Hid. apply in_or_app. now right.
  - rewrite length_app, length_seq. exact Hlen.
  - intros id row Hid Hrow Ha. exfalso.
    apply in_seq in Hid as [Hlo Hhi].
    rewrite Hhp, lookup_app_r, lookup_rowsFrom in Hrow by lia.
    destruct (l !! (id - length (heap s))) as [item|]; [|discriminate Hrow].
    injection Hrow as <-. discriminate Ha.
Qed.

Lemma remote_renderItems_wellFormed l s : wellFormed (Remote.renderItems l s) = true.
Proof.
  apply (rendered_rows_wellFormed s _ l).
  - apply remote_renderItems_rowNodes.
  - now rewrite remote_renderItems_eq.
  - now rewrite remote_renderItems_eq.
  - rewrite remote_renderItems_eq. cbn [items]. lia.
Qed.

Lemma local_renderItems_wellFormed l s :
  length (items s) <= length (itemEls s) + length l ->
  wellFormed (Local.renderItems l s) = true.
Proof.
  intros Hlen. apply (rendered_rows_wellFormed s _ l).
  - apply local_renderItems_rowNodes.
  - now rewrite local_renderItems_eq.
  - now rewrite local_renderItems_eq.
  - rewrite local_renderItems_eq. exact Hlen.
Qed.

Lemma remote_render_wellFormed l : wellFormed (Remote.render l) = true.
Proof. apply remote_renderItems_wellFormed. Qed.

Lemma local_render_wellFormed l : wellFormed (Local.render l) = true.
Proof. apply local_renderItems_wellFormed. cbn. lia. Qed.

Lemma setConfirmationState_wellFormed id row s :
  heap s !! id = Some row ->
  resolvesToConfirming s row = true ->
  wellFormed s = true ->
  wellFormed (setConfirmationState id s) = true.
Proof.
  intros Hrow Hres Hwf. apply wellFormed_iff in Hwf as (H1 & H2 & H3).
  apply wellFormed_iff. split; [exact H1|]. split; [exact H2|].
  cbn [setConfirmationState children heap set_heap].
  intros id' row' Hid' Hrow' Ha.
  destruct (Nat.eq_dec id id') as [<- | Hne].
  - rewrite list_lookup_alter_eq, Hrow in Hrow'. injection Hrow' as <-. exact Hres.
  - rewrite list_lookup_alter_ne in Hrow' by exact Hne. eapply H3; eauto.
Qed.

Lemma callOnClick_wellFormed item s :
  wellFormed (fst (callOnClick item s)) = wellFormed s.
Proof. unfold callOnClick. now destruct (onClick item). Qed.

Lemma remote_popoverClicked_wellFormed t s s' c :
  Remote.popoverClicked t s = Some (s', c) ->
  wellFormed s = true -> wellFormed s' = true.
Proof.
  unfold Remote.popoverClicked. destruct (closest t) as [id|]; [|congruence].
  destruct (heap s !! id) as [row|] eqn:Hrow; [|discriminate].
  destruct (items s !! dataset_index row) as [item|] eqn:Hitem; cbn [from_option].
  - destruct (confirmationRequired item && negb (hasConfirmationState row)) eqn:Hc.
    + intros [= <- <-] Hwf. apply andb_true_iff in Hc as [Hc _].
      apply (setConfirmationState_wellFormed id row); auto.
      unfold resolvesToConfirming. now rewrite Hitem.
    + intros E Hwf. rewrite <- Hwf, <- (callOnClick_wellFormed item s).
      now destruct (callOnClick item s); injection E as <- <-.
  - cbn [andb]. congruence.
Qed.

Lemma local_popoverClicked_wellFormed t s s' c :
  Local.popoverClicked t s = Some (s', c) ->
  wellFormed s = true -> wellFormed s' = true.
Proof.
  unfold Local.popoverClicked. destruct (closest t) as [id|]; [|congruence].
  destruct (heap s !! id) as [row|] eqn:Hrow; [|discriminate].
  destruct (items s !! dataset_index row) as [item|] eqn:Hitem; [|congruence].
  destruct (confirmationRequired item && negb (hasConfirmationState row)) eqn:Hc.
  - intros [= <- <-] Hwf. apply andb_true_iff in Hc as [Hc _].
    apply (setConfirmationState_wellFormed id row); auto.
    unfold resolvesToConfirming. now rewrite Hitem.
  - intros E Hwf. rewrite <- Hwf, <- (callOnClick_wellFormed item s).
    now destruct (callOnClick item s); injection E as <- <-.
Qed.

Lemma open_wellFormed h s :
  wellFormed s = true ->
  snd (open h s) = Normal /\ wellFormed (fst (open h s)) = true.
Proof.
  intros Hwf. apply wellFormed_iff in Hwf as (H1 & H2 & H3).
  destruct (open_spec h s H2) as (hp & -> & F). split; [reflexivity|].
  apply wellFormed_iff. split; [exact H1|]. split; [exact H2|].
  cbn [fst children heap set_heap set_popoverOpened].
  intros id row' Hid Hrow' Ha.
  destruct (Forall2_lookup_r _ _ _ _ _ F Hrow') as (row & Hrow & R).
  apply keepsButHidden_fields in R as (Ri & _ & Rc).
  unfold resolvesToConfirming in *. cbn [items set_heap set_popoverOpened].
  rewrite Ri. apply (H3 id row Hid Hrow). congruence.
Qed.

Lemma close_wellFormed s : wellFormed s = true -> wellFormed (close s) = true.
Proof.
  intros Hwf. apply wellFormed_iff in Hwf as (H1 & H2 & H3).
  rewrite close_eq. apply wellFormed_iff. split; [exact H1|]. split; [exact H2|].
  cbn [children heap set_heap set_popoverOpened].
  intros id row Hid Hrow Ha.
  rewrite (clearAll_clears _ _ _ _ (H1 id Hid) Hrow) in Ha. discriminate Ha.
Qed.

Lemma local_step_wellFormed e s s' c :
  Local.step e s = Some (s', c) -> wellFormed s = true -> wellFormed s' = true.
Proof.
  destruct e as [value | t | h |]; cbn [Local.step].
  - intros [= E] Hwf. unfold Local.keydown in E.
    destruct (RegExp.compile _); injection E as <- <-; [exact Hwf|].
    apply local_renderItems_wellFormed.
    apply wellFormed_iff in Hwf as (_ & H2 & _). lia.
  - destruct t as [| | id]; [| |destruct (isAttached id s); [|discriminate]];
      apply local_popoverClicked_wellFormed.
  - intros [= E] Hwf. destruct (open_wellFormed h s Hwf) as [_ H].
    rewrite E in H. exact H.
  - intros [= <- <-]. apply close_wellFormed.
Qed.

(** Every state the local version reaches from [render()] is well formed. *)
Lemma local_reachable_wellFormed es l s :
  Local.run es (Local.render l) = Some s -> wellFormed s = true.
Proof.
  generalize (local_render_wellFormed l). generalize (Local.render l).
  induction es as [|e es IH]; intros s0 Hwf; cbn [Local.run].
  - now intros [= <-].
  - destruct (Local.step e s0) as [[s1 c]|] eqn:E; [|discriminate].
    apply IH. eapply local_step_wellFormed; eauto.
Qed.

Lemma remote_finish_wellFormed w r :
  wellFormed (fst r) = true -> wellFormed (Remote.popover (Remote.finish w r)) = true.
Proof. destruct r as [s [|e]]; auto. Qed.

Lemma remote_keydown_popover value w :
  Remote.popover (Remote.keydown value w) =
  set_interval (Some (Remote.nextTimerId w)) (Remote.popover w).
Proof.
  unfold Remote.keydown, Remote.clearTimeout.
  now destruct (interval (Remote.popover w)).
Qed.

Lemma remote_step_wellFormed e w w' :
  Remote.step e w = Some w' ->
  wellFormed (Remote.popover w) = true -> wellFormed (Remote.popover w') = true.
Proof.
  destruct e as [value | ms | id | o | t | h |]; cbn [Remote.step].
  - intros [= <-]. now rewrite remote_keydown_popover.
  - intros [= <-]. auto.
  - unfold Remote.timerFires.
    destruct (find _ _) as [[i due]|]; [|discriminate].
    destruct (Nat.leb due (Remote.now w)); [|discriminate]. now intros [= <-].
  - unfold Remote.fetchSettles. destruct (Remote.inFlight w) as [|n]; [discriminate|].
    destruct o as [|[products|]]; cbn [Remote.getData]; intros [= <-]; auto.
    intros _. apply remote_renderItems_wellFormed.
  - assert (G : Remote.finish w <$> Remote.popoverClicked t (Remote.popover w) = Some w' ->
                wellFormed (Remote.popover w) = true -> wellFormed (Remote.popover w') = true).
    { destruct (Remote.popoverClicked t (Remote.popover w)) as [[s c]|] eqn:E; [|discriminate].
      intros [= <-] Hwf. apply (remote_finish_wellFormed w (s, c)).
      eapply remote_popoverClicked_wellFormed; eauto. }
    destruct t as [| | id]; [exact G | exact G |].
    destruct (isAttached id (Remote.popover w)); [exact G | discriminate].
  - intros [= <-] Hwf. apply remote_finish_wellFormed. now apply open_wellFormed.
  - intros [= <-]. apply close_wellFormed.
Qed.

(** Every state the remote version reaches from [render()] is well formed. *)
Lemma remote_reachable_wellFormed es l w :
  Remote.run es (Remote.boot l) = Some w -> wellFormed (Remote.popover w) = true.
Proof.
  assert (H0 : wellFormed (Remote.popover (Remote.boot l)) = true)
    by apply remote_render_wellFormed.
  revert H0. generalize (Remote.boot l).
  induction es as [|e es IH]; intros w0 Hwf; cbn [Remote.run].
  - now intros [= <-].
  - destruct (Remote.step e w0) as [w1|] eqn:E; [|discriminate].
    apply IH. eapply remote_step_wellFormed; eauto.
Qed.

(** ** The debounce of the remote search *)

Lemma openRows_interval h l i s : interval (fst (openRows h i l s)) = interval s.
Proof.
  revert i s. induction l as [|item l IH]; intros i s; [reflexivity|].
  cbn [openRows]. destruct (hideIf item) as [p|]; [|apply IH].
  destruct (itemEls s !! i) as [id|]; [|reflexivity].
  rewrite IH. reflexivity.
Qed.

Lemma open_interval h s : interval (fst (open h s)) = interval s.
Proof.
  unfold open. pose proof (openRows_interval h (items s) 0 s) as H.
  destruct (openRows h 0 (items s) s) as [s' [|e]]; exact H.
Qed.

Lemma close_interval s : interval (close s) = interval s.
Proof. now rewrite close_eq. Qed.

Lemma remote_popoverClicked_interval t s s' c :
  Remote.popoverClicked t s = Some (s', c) -> interval s' = interval s.
Proof.
  unfold Remote.popoverClicked, callOnClick. destruct (closest t) as [id|]; [|congruence].
  destruct (heap s !! id) as [row|]; [|discriminate].
  destruct (_ && _); [now intros [= <- <-]|].
  destruct (items s !! dataset_index row) as [item|]; [|now intros [= <- <-]].
  destruct (onClick item); now intros [= <- <-].
Qed.

Lemma remote_finish_interval w r :
  interval (Remote.popover (Remote.finish w r)) = interval (fst r).
Proof. now destruct r as [s [|e]]. Qed.

Lemma remote_finish_timing w r :
  Remote.timers (Remote.finish w r) = Remote.timers w /\
  Remote.now (Remote.finish w r) = Remote.now w /\
  Remote.fetchCycles (Remote.finish w r) = Remote.fetchCycles w.
Proof. now destruct r as [s [|e]]. Qed.

(** Events other than keystrokes, the passing of time and the timeout
    leave the timeouts, the clock, the count of fetch cycles and
    [this.interval] alone. *)
Lemma remote_step_timing e w w' :
  Remote.step e w = Some w' ->
  match e with
  | Remote.FetchSettles _ | Remote.Click _ | Remote.Open _ | Remote.Close =>
      Remote.timers w' = Remote.timers w /\ Remote.now w' = Remote.now w /\
      Remote.fetchCycles w' = Remote.fetchCycles w /\
      interval (Remote.popover w') = interval (Remote.popover w)
  | _ => True
  end.
Proof.
  destruct e as [value | ms | id | o | t | h |]; cbn [Remote.step]; auto.
  - unfold Remote.fetchSettles. destruct (Remote.inFlight w) as [|n]; [discriminate|].
    destruct o as [|[products|]]; cbn [Remote.getData]; intros [= <-]; auto.
    cbn. now rewrite remote_renderItems_eq.
  - assert (G : Remote.finish w <$> Remote.popoverClicked t (Remote.popover w) = Some w' ->
                Remote.timers w' = Remote.timers w /\ Remote.now w' = Remote.now w /\
                Remote.fetchCycles w' = Remote.fetchCycles w /\
                interval (Remote.popover w') = interval (Remote.popover w)).
    { destruct (Remote.popoverClicked t (Remote.popover w)) as [[s c]|] eqn:E; [|discriminate].
      intros [= <-].
      pose proof (remote_popoverClicked_interval _ _ _ _ E) as Hi.
      destruct c; cbn; auto. }
    destruct t as [| | id]; [exact G | exact G |].
    destruct (isAttached id (Remote.popover w)); [exact G | discriminate].
  - intros [= <-].
    destruct (remote_finish_timing w (open h (Remote.popover w))) as (-> & -> & ->).
    now rewrite remote_finish_interval, open_interval.
  - intros [= <-]. cbn. now rewrite close_interval.
Qed.

Lemma remote_keydown_timers value w :
  (forall t, In t (Remote.timers w) -> interval (Remote.popover w) = Some (fst t)) ->
  Remote.timers (Remote.keydown value w) = [(Remote.nextTimerId w, Remote.now w + 500)] /\
  Remote.now (Remote.keydown value w) = Remote.now w /\
  Remote.fetchCycles (Remote.keydown value w) = Remote.fetchCycles w.
Proof.
  intros Hp. unfold Remote.keydown, Remote.clearTimeout.
  destruct (interval (Remote.popover w)) as [id|] eqn:Ei; cbn.
  - replace (List.filter _ (Remote.timers w)) with (@nil (nat * nat)); [auto|].
    symmetry. induction (Remote.timers w) as [|t ts IH]; [reflexivity|].
    cbn [List.filter]. specialize (Hp t (or_introl eq_refl)) as Ht.
    injection Ht as ->. rewrite Nat.eqb_refl. cbn [negb].
    apply IH. intros t' Ht'. apply Hp. now right.
  - destruct (Remote.timers w) as [|t ts]; [auto|].
    specialize (Hp t (or_introl eq_refl)). discriminate Hp.
Qed.

Lemma debounced_step cycles since e w w' :
  debounced cycles since w ->
  Remote.step e w = Some w' ->
  burst since [e] = true ->
  debounced cycles (sinceAfter since e) w'.
Proof.
  intros HJ Hstep Hb. pose proof (remote_step_timing e w w' Hstep) as Hsame.
  destruct e as [value | ms | id | o | t | h |]; cbn [sinceAfter];
    try (destruct Hsame as (Et & En & Ec & Ei);
         destruct since as [d|]; cbn [debounced] in *;
         rewrite ?Et, ?En, ?Ec, ?Ei; exact HJ).
  - (* a keystroke *)
    cbn [Remote.step] in Hstep. injection Hstep as <-.
    assert (Hp : forall t, In t (Remote.timers w) ->
                           interval (Remote.popover w) = Some (fst t)).
    { destruct since as [d|]; cbn [debounced] in HJ.
      - destruct HJ as [(id & due & -> & _ & -> & _) | (-> & _)];
          [intros t [<- | []]; reflexivity | intros t []].
      - destruct HJ as [-> _]. intros t []. }
    destruct (remote_keydown_timers value w Hp) as (Et & En & Ec).
    assert (Hc : Remote.fetchCycles w = cycles).
    { destruct since as [d|]; cbn [debounced burst] in HJ, Hb.
      - destruct HJ as [(id & due & _ & _ & _ & Hc) | (_ & Hd & _)]; [exact Hc|].
        rewrite andb_true_r in Hb. apply Nat.ltb_lt in Hb. lia.
      - now destruct HJ. }
    cbn [debounced]. left. exists (Remote.nextTimerId w), (Remote.now w + 500).
    rewrite Et, En, Ec, remote_keydown_popover. cbn [interval set_interval].
    repeat split; [lia | exact Hc].
  - (* time passes *)
    cbn [Remote.step] in Hstep. injection Hstep as <-.
    destruct since as [d|]; cbn [debounced fmap option_fmap option_map] in *; [|exact HJ].
    destruct HJ as [(id & due & Et & Ed & Ei & Ec) | (Et & Hd & Ec)].
    + left. exists id, due. cbn. repeat split; auto. lia.
    + right. cbn. repeat split; auto. lia.
  - (* the timeout fires *)
    cbn [Remote.step] in Hstep. unfold Remote.timerFires in Hstep.
    destruct since as [d|]; cbn [debounced] in *.
    + destruct HJ as [(id' & due & Et & Ed & Ei & Ec) | (Et & Hd & Ec)].
      * rewrite Et in Hstep. cbn [find fst] in Hstep.
        destruct (Nat.eqb id' id) eqn:Eid; [|discriminate Hstep].
        destruct (Nat.leb due (Remote.now w)) eqn:Edue; [|discriminate Hstep].
        injection Hstep as <-. apply Nat.leb_le in Edue.
        right. cbn. rewrite Eid. cbn. repeat split; [lia | now rewrite Ec].
      * rewrite Et in Hstep. discriminate Hstep.
    + destruct HJ as [Et _]. rewrite Et in Hstep. discriminate Hstep.
Qed.

Lemma burst_cons since e es :
  burst since (e :: es) = burst since [e] && burst (sinceAfter since e) es.
Proof. cbn [burst]. now rewrite andb_true_r. Qed.

Lemma burst_app since es1 es2 :
  burst since (es1 ++ es2) = burst since es1 && burst (sinceAfterAll since es1) es2.
Proof.
  revert since. induction es1 as [|e es1 IH]; intros since; [reflexivity|].
  cbn [app]. rewrite (burst_cons since e (es1 ++ es2)), (burst_cons since e es1), IH.
  now rewrite andb_assoc.
Qed.

Lemma remote_run_app es1 es2 w :
  Remote.run (es1 ++ es2) w = Remote.run es1 w ≫= Remote.run es2.
Proof.
  revert w. induction es1 as [|e es1 IH]; intros w; [reflexivity|].
  cbn [app Remote.run]. destruct (Remote.step e w); [apply IH | reflexivity].
Qed.

Lemma debounced_run cycles es since w w' :
  debounced cycles since w ->
  Remote.run es w = Some w' ->
  burst since es = true ->
  debounced cycles (sinceAfterAll since es) w'.
Proof.
  revert since w. induction es as [|e es IH]; intros since w HJ Hrun Hb.
  - injection Hrun as <-. exact HJ.
  - cbn [Remote.run] in Hrun. destruct (Remote.step e w) as [w1|] eqn:E; [|discriminate].
    rewrite burst_cons in Hb. apply andb_true_iff in Hb as [Hb1 Hb2].
    apply (IH (sinceAfter since e) w1); auto.
    eapply debounced_step; eauto.
Qed.

Lemma no_keystroke_after_quiet d es :
  500 <= d -> burst (Some d) es = true -> forallb (fun e => negb (isKeydown e)) es = true.
Proof.
  revert d. induction es as [|e es IH]; intros d Hd Hb; [reflexivity|].
  cbn [burst] in Hb. apply andb_true_iff in Hb as [Hb1 Hb2].
  destruct e as [value | ms | id | o | t | h |]; cbn [forallb isKeydown negb andb];
    cbn [sinceAfter fmap option_fmap option_map] in Hb2;
    try (apply (IH d Hd Hb2)).
  - apply Nat.ltb_lt in Hb1. lia.
  - apply (IH (d + ms)); [lia | exact Hb2].
Qed.

Lemma sinceAfterAll_app since es1 es2 :
  sinceAfterAll since (es1 ++ es2) = sinceAfterAll (sinceAfterAll since es1) es2.
Proof. apply fold_left_app. Qed.

Lemma timerFires_after_quiet cycles since id w w' :
  debounced cycles since w ->
  Remote.timerFires id w = Some w' ->
  exists d, since = Some d /\ 500 <= d.
Proof.
  intros HJ Hf. unfold Remote.timerFires in Hf.
  destruct since as [d|]; cbn [debounced] in HJ.
  - exists d. split; [reflexivity|].
    destruct HJ as [(id' & due & Et & Ed & _) | (_ & Hd & _)]; [|exact Hd].
    rewrite Et in Hf. cbn [find fst] in Hf.
    destruct (Nat.eqb id' id); [|discriminate Hf].
    destruct (Nat.leb due (Remote.now w)) eqn:Edue; [|discriminate Hf].
    apply Nat.leb_le in Edue. lia.
  - destruct HJ as [Et _]. rewrite Et in Hf. discriminate Hf.
Qed.

(** C7: in the remote version, started with no timeout pending and fed
    keystrokes that follow one another by less than 500 ms (with any other
    events in between), each keystroke leaves exactly one timeout pending,
    its own, due 500 ms later, the earlier one having been cancelled; a
    timeout fires only once 500 ms have passed since the last keystroke, and
    no keystroke of the burst comes after it; so at most one fetch cycle
    runs. *)
Theorem debounce_one_fetch_per_burst (es : list Remote.Event) (w0 w : Remote.World) :
  Remote.timers w0 = [] ->
  burst None es = true ->
  Remote.run es w0 = Some w ->
  (forall pre value post,
     es = pre ++ Remote.Keydown value :: post ->
     exists w1 id,
       Remote.run (pre ++ [Remote.Keydown value]) w0 = Some w1 /\
       Remote.timers w1 = [(id, Remote.now w1 + 500)] /\
       interval (Remote.popover w1) = Some id) /\
  (forall pre id post,
     es = pre ++ Remote.TimerFires id :: post ->
     (exists d, sinceAfterAll None pre = Some d /\ 500 <= d) /\
     forallb (fun e => negb (isKeydown e)) post = true) /\
  Remote.fetchCycles w <= Remote.fetchCycles w0 + 1.
Proof.
  intros Ht Hb Hrun.
  assert (H0 : debounced (Remote.fetchCycles w0) None w0) by (cbn; auto).
  split; [|split].
  - intros pre value post ->.
    rewrite remote_run_app in Hrun.
    destruct (Remote.run pre w0) as [w1|] eqn:Epre; [|discriminate Hrun].
    rewrite burst_app, burst_cons in Hb.
    apply andb_true_iff in Hb as [Hb1 Hb2]. apply andb_true_iff in Hb2 as [Hb2 _].
    pose proof (debounced_run _ _ _ _ _ H0 Epre Hb1) as H1.
    pose proof (debounced_step _ _ (Remote.Keydown value) w1 _ H1 eq_refl Hb2) as H2.
    cbn [sinceAfter debounced] in H2.
    destruct H2 as [(id & due & Et & Ed & Ei & _) | (_ & Hd & _)]; [|lia].
    exists (Remote.keydown value w1), id.
    rewrite remote_run_app, Epre. split; [reflexivity|].
    split; [|exact Ei]. rewrite Et. f_equal. f_equal. lia.
  - intros pre id post ->.
    rewrite remote_run_app in Hrun.
    destruct (Remote.run pre w0) as [w1|] eqn:Epre; [|discriminate Hrun].
    cbn [mbind option_bind Remote.run Remote.step] in Hrun.
    destruct (Remote.timerFires id w1) as [w2|] eqn:Ef; [|discriminate Hrun].
    rewrite burst_app, burst_cons in Hb.
    apply andb_true_iff in Hb as [Hb1 Hb2]. apply andb_true_iff in Hb2 as [_ Hb2].
    pose proof (debounced_run _ _ _ _ _ H0 Epre Hb1) as H1.
    destruct (timerFires_after_quiet _ _ _ _ _ H1 Ef) as (d & Ed & Hd).
    split; [eauto|].
    cbn [sinceAfter] in Hb2. rewrite Ed in Hb2.
    exact (no_keystroke_after_quiet d post Hd Hb2).
  - pose proof (debounced_run _ _ _ _ _ H0 Hrun Hb) as H1.
    destruct (sinceAfterAll None es) as [d|]; cbn [debounced] in H1.
    + destruct H1 as [(_ & _ & _ & _ & _ & ->) | (_ & _ & ->)]; lia.
    + destruct H1 as [_ ->]. lia.
Qed.

Lemma debounce_one_fetch_per_burst_witness :
  Remote.timers (Remote.boot [action "Rename" false 1]) = [] /\
  burst None typingAB = true /\
  exists w,
    Remote.run typingAB (Remote.boot [action "Rename" false 1]) = Some w /\
    Remote.fetchCycles w <= Remote.fetchCycles (Remote.boot [action "Rename" false 1]) + 1.
Proof.
  split; [reflexivity|]. split; [reflexivity|].
  destruct (Remote.run typingAB (Remote.boot [action "Rename" false 1])) as [w|] eqn:E.
  - exists w. split; [reflexivity|].
    exact (proj2 (proj2 (debounce_one_fetch_per_burst typingAB
                           (Remote.boot [action "Rename" false 1]) w
                           eq_refl eq_refl E))).
  - vm_compute in E. discriminate E.
Defined.

(** ** Re-rendering *)

Lemma renderItems_itemEls_grow l s :
  itemEls (Remote.renderItems l s) = itemEls s ++ seq (length (heap s)) (length l) /\
  itemEls (Local.renderItems l s) = itemEls s ++ seq (length (heap s)) (length l).
Proof. now rewrite remote_renderItems_eq, local_renderItems_eq. Qed.

(** The part of the guarantee that holds on every call: the wrapper ends up
    with as many rows as items were passed. *)
Lemma renderItems_dom_rows l s :
  length (attachedRows (Remote.renderItems l s)) = length l /\
  length (attachedRows (Local.renderItems l s)) = length l.
Proof.
  now rewrite remote_renderItems_attached, local_renderItems_attached, length_rowsFrom.
Qed.

(** On the call made by [render()], [itemEls] starts empty and the guarantee
    holds. *)
Lemma render_itemEls_aligned l :
  items (Remote.render l) = l /\
  itemEls (Remote.render l) = rowNodes (children (Remote.render l)) /\
  attachedRows (Remote.render l) = rowsFrom 0 l.
Proof.
  unfold Remote.render. rewrite remote_renderItems_attached, remote_renderItems_rowNodes.
  now rewrite remote_renderItems_eq.
Qed.

(** C3 (defect): [renderItems] pushes onto [this.itemEls] and nothing ever
    empties it, so from the second call on it still holds the detached rows
    of earlier calls.  Remote version: after the items [Rename] were
    rendered and one search brought the product Phone, [items] has 2
    entries and the wrapper 2 rows, but [itemEls] has 3, the first a
    detached row.  Local version: after one keystroke [itemEls] has 3
    entries for 2 items (unchanged) and 1 row. *)
Theorem renderItems_keeps_stale_row_elements :
  (fun w => (length (items (Remote.popover w)), itemEls (Remote.popover w),
             rowNodes (children (Remote.popover w))))
    <$> Remote.run (searchOnce (Remote.Body (Some [phone])))
          (Remote.boot [action "Rename" false 1])
  = Some (2, [0; 1; 2], [1; 2]) /\
  (let s := fst (Local.keydown (chars "copy")
                   (Local.render [action "Rename" false 1; action "Copy" false 2])) in
   (length (items s), itemEls s, rowNodes (children s)) = (2, [0; 1; 2], [2])).
Proof. vm_compute. auto. Qed.

(** C6 (same defect as C3): [open()] reaches rows through
    [this.itemEls[index]], which after a second [renderItems] call are the
    detached rows of the first.  With one item whose [hideIf] holds while
    the host state is 1: right after [render()], [open()] hides its row;
    after a keystroke that re-rendered the same item, [open()] completes
    normally, sets the hidden flag on the detached row 0 and leaves the
    attached row shown.  The same happens in the remote version once a
    search has re-rendered. *)
Theorem open_after_rerender_misses_attached_rows :
  let paste := hiddenWhenBusy "Paste" 1 in
  attachedRows (fst (open 1 (Local.render [paste]))) = [set_hidden true (makeRow 0 paste)] /\
  (let s := fst (Local.keydown (chars "paste") (Local.render [paste])) in
   snd (open 1 s) = Normal /\
   attachedRows (fst (open 1 s)) = [makeRow 0 paste] /\
   heap (fst (open 1 s)) !! 0 = Some (set_hidden true (makeRow 0 paste))) /\
  (fun w => (attachedRows (Remote.popover w), Remote.uncaught w))
    <$> Remote.run (searchOnce (Remote.Body (Some [])) ++ [Remote.Open 1])
          (Remote.boot [paste])
  = Some ([makeRow 0 paste], []).
Proof. vm_compute. auto. Qed.

(** ** A failed fetch *)

Lemma fetchSettles_Rejected w n :
  Remote.inFlight w = S n ->
  exists w',
    Remote.fetchSettles Remote.Rejected w = Some w' /\
    Remote.popover w' = Remote.popover w /\
    Remote.console w' = Remote.console w ++ ["error"%string] /\
    Remote.uncaught w' = Remote.uncaught w ++
      [TypeError "Cannot read properties of undefined (reading 'products')"].
Proof.
  intros H. unfold Remote.fetchSettles. rewrite H. cbn [Remote.getData].
  eexists. split; [reflexivity|]. auto.
Qed.

(** C8 (defect): when the fetch fails, the [catch] callback logs it and
    leaves [result] undefined; [result.products] then throws inside
    [getData], whose promise rejects, and the [then] in the timeout callback
    has no rejection handler.  After one keystroke, its timeout and a
    rejected fetch on a popover showing [Rename]: the failure is logged, the
    rows are the ones rendered before, and a TypeError is left unhandled. *)
Theorem fetch_failure_leaves_unhandled_rejection :
  (fun w => (Remote.console w, attachedRows (Remote.popover w),
             items (Remote.popover w), Remote.uncaught w))
    <$> Remote.run (searchOnce Remote.Rejected) (Remote.boot [action "Rename" false 1])
  = Some (["error"%string],
          rowsFrom 0 [action "Rename" false 1],
          [action "Rename" false 1],
          [TypeError "Cannot read properties of undefined (reading 'products')"]).
Proof. vm_compute. auto. Qed.

(** ** In the remote version the view and [this.items] agree *)

Lemma stamps_related (R : Row -> Row -> Prop) hp hp' ids :
  (forall r r', R r r' -> stamp r' = stamp r) ->
  Forall2 R hp hp' ->
  map stamp (omap (fun id => hp' !! id) ids) = map stamp (omap (fun id => hp !! id) ids).
Proof.
  intros HR F. induction ids as [|id ids IH]; [reflexivity|].
  change (omap ?f (?a :: ?l))
    with (match f a with Some y => y :: omap f l | None => omap f l end).
  cbn beta. destruct (hp !! id) as [r|] eqn:E.
  - destruct (Forall2_lookup_l _ _ _ _ _ F E) as (r' & -> & Hr).
    cbn [map]. now rewrite (HR _ _ Hr), IH.
  - destruct (hp' !! id) as [r'|] eqn:E'; [|exact IH].
    destruct (Forall2_lookup_r _ _ _ _ _ F E') as (r & Hr & _). congruence.
Qed.

Lemma remote_renderItems_aligned l s : aligned (Remote.renderItems l s).
Proof.
  unfold aligned. rewrite remote_renderItems_attached.
  now rewrite remote_renderItems_eq.
Qed.

Lemma setConfirmationState_aligned id s : aligned s -> aligned (setConfirmationState id s).
Proof.
  unfold aligned, attachedRows. intros H. cbn [setConfirmationState children heap items set_heap].
  rewrite <- H. apply (stamps_related (fun r r' => stamp r' = stamp r)); [auto|].
  apply Forall2_alter_r; [apply Forall2_refl_rows; auto|].
  intros x y _ _ <-. reflexivity.
Qed.

Lemma remote_popoverClicked_aligned t s s' c :
  Remote.popoverClicked t s = Some (s', c) -> aligned s -> aligned s'.
Proof.
  unfold Remote.popoverClicked, callOnClick. destruct (closest t) as [id|]; [|congruence].
  destruct (heap s !! id) as [row|]; [|discriminate].
  destruct (_ && _); [intros [= <- <-]; apply setConfirmationState_aligned|].
  destruct (items s !! dataset_index row) as [item|]; [|now intros [= <- <-]].
  destruct (onClick item); now intros [= <- <-].
Qed.

Lemma open_aligned h s : aligned s -> aligned (fst (open h s)).
Proof.
  assert (G : forall l i s0, aligned s0 -> aligned (fst (openRows h i l s0))).
  { induction l as [|item l IH]; intros i s0 H0; [exact H0|].
    cbn [openRows]. destruct (hideIf item) as [p|]; [|now apply IH].
    destruct (itemEls s0 !! i) as [id|]; [|exact H0].
    apply IH. unfold aligned, attachedRows in *.
    cbn [toggleHidden children heap items set_heap]. rewrite <- H0.
    apply (stamps_related keepsButHidden).
    - intros r r' Hr. apply keepsButHidden_fields in Hr as (Hi & Hb & _).
      unfold stamp. now rewrite Hi, Hb.
    - apply Forall2_alter_r; [apply Forall2_refl_rows, keepsButHidden_refl|].
      intros x y _ _ Hxy. eapply keepsButHidden_trans; [exact Hxy | apply keepsButHidden_set]. }
  intros H. unfold open. specialize (G (items s) 0 s H).
  destruct (openRows h 0 (items s) s) as [s' [|e]]; exact G.
Qed.

Lemma close_aligned s : aligned s -> aligned (close s).
Proof.
  unfold aligned, attachedRows. rewrite close_eq.
  cbn [children heap items set_heap set_popoverOpened]. intros <-.
  apply (stamps_related clearedOrKept); [|apply clearAll_related].
  intros r r' Hr. apply clearedOrKept_fields in Hr as (Hi & Hb & _).
  unfold stamp. now rewrite Hi, Hb.
Qed.

Lemma remote_step_aligned e w w' :
  Remote.step e w = Some w' -> aligned (Remote.popover w) -> aligned (Remote.popover w').
Proof.
  destruct e as [value | ms | id | o | t | h |]; cbn [Remote.step].
  - intros [= <-]. now rewrite remote_keydown_popover.
  - intros [= <-]. auto.
  - unfold Remote.timerFires.
    destruct (find _ _) as [[i due]|]; [|discriminate].
    destruct (Nat.leb due (Remote.now w)); [|discriminate]. now intros [= <-].
  - unfold Remote.fetchSettles. destruct (Remote.inFlight w) as [|n]; [discriminate|].
    destruct o as [|[products|]]; cbn [Remote.getData]; intros [= <-]; auto.
    intros _. apply remote_renderItems_aligned.
  - assert (G : Remote.finish w <$> Remote.popoverClicked t (Remote.popover w) = Some w' ->
                aligned (Remote.popover w) -> aligned (Remote.popover w')).
    { destruct (Remote.popoverClicked t (Remote.popover w)) as [[s c]|] eqn:E; [|discriminate].
      intros [= <-] Ha. pose proof (remote_popoverClicked_aligned _ _ _ _ E Ha).
      now destruct c. }
    destruct t as [| | id]; [exact G | exact G |].
    destruct (isAttached id (Remote.popover w)); [exact G | discriminate].
  - intros [= <-] Ha. pose proof (open_aligned h _ Ha) as H.
    now destruct (open h (Remote.popover w)) as [s [|e]].
  - intros [= <-]. apply close_aligned.
Qed.

Lemma remote_reachable_aligned es l w :
  Remote.run es (Remote.boot l) = Some w -> aligned (Remote.popover w).
Proof.
  assert (H0 : aligned (Remote.popover (Remote.boot l)))
    by apply remote_renderItems_aligned.
  revert H0. generalize (Remote.boot l).
  induction es as [|e es IH]; intros w0 Ha; cbn [Remote.run].
  - now intros [= <-].
  - destruct (Remote.step e w0) as [w1|] eqn:E; [|discriminate].
    apply IH. eapply remote_step_aligned; eauto.
Qed.

Lemma aligned_lookup s k row :
  aligned s -> attachedRows s !! k = Some row ->
  dataset_index row = k /\
  exists item, items s !! k = Some item /\ body row = body (makeRow k item).
Proof.
  intros Ha Hk. assert (E : map stamp (attachedRows s) !! k = Some (stamp row)).
  { change (map stamp) with (fmap (M:=list) stamp). now rewrite list_lookup_fmap, Hk. }
  rewrite Ha in E. change (map stamp) with (fmap (M:=list) stamp) in E.
  rewrite list_lookup_fmap, lookup_rowsFrom in E.
  destruct (items s !! k) as [item|]; [|discriminate E].
  cbn in E. injection E as Ei Eb. split; [congruence|]. exists item. auto.
Qed.

Lemma attached_row_shown s id row :
  In id (rowNodes (children s)) -> heap s !! id = Some row ->
  exists k, attachedRows s !! k = Some row.
Proof.
  intros Hin Hrow. apply list_elem_of_lookup. unfold attachedRows.
  apply list_elem_of_omap. exists id. split; [now apply list_elem_of_In | exact Hrow].
Qed.

(** In the remote version a click on an attached row is resolved to the
    item that row shows, and follows the confirmation policy for it. *)
Lemma remote_click_resolves_shown_item s id row :
  aligned s ->
  In id (rowNodes (children s)) -> heap s !! id = Some row ->
  exists item,
    items s !! dataset_index row = Some item /\
    body row = body (makeRow (dataset_index row) item) /\
    Remote.popoverClicked (InRow id) s =
    Some (if confirmationRequired item && negb (itemConfirmState row)
          then (setConfirmationState id s, Normal)
          else callOnClick item s).
Proof.
  intros Ha Hin Hrow. destruct (attached_row_shown s id row Hin Hrow) as [k Hk].
  destruct (aligned_lookup s k row Ha Hk) as (Ei & item & Hitem & Hb).
  exists item. rewrite Ei. split; [exact Hitem|]. split; [exact Hb|].
  unfold Remote.popoverClicked, hasConfirmationState. cbn [closest].
  rewrite Hrow, Ei, Hitem. cbn [from_option].
  now destruct (confirmationRequired item && negb (itemConfirmState row)).
Qed.

(** X12: the two clicks of the confirmation policy, on a row whose stamp
    resolves to [item]: the first arms the row and calls nothing, the second
    calls [onClick] once and leaves the row armed. *)
Lemma two_clicks_confirm id row item cb s :
  heap s !! id = Some row ->
  items s !! dataset_index row = Some item ->
  confirmationRequired item = true ->
  itemConfirmState row = false ->
  onClick item = Some cb ->
  let s1 := setConfirmationState id s in
  let s2 := set_calls (calls s ++ [cb]) s1 in
  (Remote.popoverClicked (InRow id) s = Some (s1, Normal) /\
   Local.popoverClicked (InRow id) s = Some (s1, Normal)) /\
  (Remote.popoverClicked (InRow id) s1 = Some (s2, Normal) /\
   Local.popoverClicked (InRow id) s1 = Some (s2, Normal)) /\
  calls s1 = calls s /\
  heap s2 !! id = Some (set_confirm true row).
Proof.
  intros Hrow Hitem Hc Hu Hcb s1 s2.
  assert (Hrow1 : heap s1 !! id = Some (set_confirm true row)).
  { cbn [s1 setConfirmationState heap set_heap]. now rewrite list_lookup_alter_eq, Hrow. }
  split; [exact (click_arms id row item s Hrow Hitem Hc Hu)|].
  split; [|split; [reflexivity | exact Hrow1]].
  apply (click_fires id (set_confirm true row) item cb s1 Hrow1); auto.
Qed.

(** ** What [open()] does right *)

Lemma length_shownFrom h i l : length (shownFrom h i l) = length l.
Proof. revert i. induction l as [|x l IH]; intros i; cbn; [reflexivity | now rewrite IH]. Qed.

Lemma openRows_fresh h l i done s :
  heap s = done ++ rowsFrom i l ->
  length done = i ->
  (forall k, k < i + length l -> itemEls s !! k = Some k) ->
  openRows h i l s = (set_heap (done ++ shownFrom h i l) s, Normal).
Proof.
  revert i done s. induction l as [|item l IH]; intros i done s Hhp Hlen Hels.
  - cbn in *. rewrite <- Hhp. now destruct s.
  - cbn [openRows shownFrom]. cbn [rowsFrom length] in Hhp, Hels.
    assert (Hnext : forall hp', hp' = (done ++ [shownRow h i item]) ++ rowsFrom (S i) l ->
              openRows h (S i) l (set_heap hp' s) =
              (set_heap (done ++ shownRow h i item :: shownFrom h (S i) l) s, Normal)).
    { intros hp' ->. rewrite (IH (S i) (done ++ [shownRow h i item]) (set_heap _ s)).
      - now rewrite <- app_assoc.
      - reflexivity.
      - rewrite length_app. cbn. lia.
      - intros k Hk. apply Hels. lia. }
    unfold shownRow at 1 2 in Hnext. unfold shownRow.
    destruct (hideIf item) as [p|].
    + rewrite (Hels i) by lia. unfold toggleHidden. apply Hnext.
      rewrite Hhp, <- Hlen, <- app_assoc.
      rewrite alter_app_r_alt by lia. rewrite Nat.sub_diag. reflexivity.
    + destruct s as [its els iv hp ch op cs]. cbn in Hhp. subst hp.
      rewrite <- (Hnext _ eq_refl). now rewrite <- app_assoc.
Qed.

(** X8: on the rows made by [render()], in both versions, [open()] completes
    normally, sets the hidden flag of every row whose item has a [hideIf]
    to what [hideIf()] returns now, leaves the rows of the other items
    alone, and marks the wrapper open. *)
Lemma open_after_render h l :
  open h (Remote.render l)
  = (set_popoverOpened true (set_heap (shownFrom h 0 l) (Remote.render l)), Normal) /\
  attachedRows (fst (open h (Remote.render l))) = shownFrom h 0 l /\
  Local.render l = Remote.render l.
Proof.
  assert (E : open h (Remote.render l)
              = (set_popoverOpened true (set_heap (shownFrom h 0 l) (Remote.render l)), Normal)).
  { unfold open. rewrite (openRows_fresh h (items (Remote.render l)) 0 [] (Remote.render l)).
    - unfold Remote.render. now rewrite remote_renderItems_eq.
    - unfold Remote.render. now rewrite remote_renderItems_eq.
    - reflexivity.
    - unfold Remote.render. rewrite remote_renderItems_eq. cbn.
      intros k Hk. now apply lookup_seq_lt. }
  split; [exact E|]. split.
  - rewrite E. unfold attachedRows. cbn [fst children heap set_heap set_popoverOpened].
    unfold Remote.render. rewrite remote_renderItems_rowNodes. cbn [constructed heap length].
    rewrite <- (length_shownFrom h 0 l).
    apply (omap_lookup_appended [] (shownFrom h 0 l)).
  - unfold Local.render, Remote.render.
    now rewrite local_renderItems_eq, remote_renderItems_eq.
Qed.

Lemma openRows_writes h l i s :
  i + length l <= length (itemEls s) ->
  openRows h i l s =
  (set_heap (applyWrites (hideWrites h i l (itemEls s)) (heap s)) s, Normal).
Proof.
  revert i s. induction l as [|item l IH]; intros i s Hlen.
  - now destruct s.
  - cbn [openRows hideWrites]. cbn [length] in Hlen.
    destruct (hideIf item) as [p|]; [|apply IH; lia].
    destruct (lookup_lt_is_Some_2 (itemEls s) i ltac:(lia)) as [id Hid]. rewrite Hid.
    rewrite IH by (cbn; lia). reflexivity.
Qed.

Lemma applyWrites_lookup ws hp j :
  applyWrites ws hp !! j = written (lastWrite ws j) <$> hp !! j.
Proof.
  revert hp. induction ws as [|[id b] ws IH]; intros hp.
  - cbn. now destruct (hp !! j).
  - cbn [applyWrites fold_left lastWrite fst snd]. fold (applyWrites ws).
    rewrite IH. destruct (Nat.eqb_spec id j) as [-> | Hne].
    + rewrite list_lookup_alter_eq. destruct (hp !! j) as [r|]; [|reflexivity].
      now destruct (lastWrite ws j).
    + rewrite list_lookup_alter_ne by exact Hne.
      now destruct (lastWrite ws j).
Qed.

Lemma applyWrites_idempotent ws hp :
  applyWrites ws (applyWrites ws hp) = applyWrites ws hp.
Proof.
  apply list_eq. intros j. rewrite !applyWrites_lookup.
  destruct (hp !! j) as [r|]; [|reflexivity].
  now destruct (lastWrite ws j).
Qed.

(** X7: calling [open()] a second time while the host state is the same
    changes nothing, whenever [itemEls] is at least as long as [items]. *)
Lemma open_idempotent h s :
  length (items s) <= length (itemEls s) ->
  open h (fst (open h s)) = open h s.
Proof.
  intros Hlen. unfold open at 2 3. rewrite (openRows_writes h (items s) 0 s Hlen).
  cbn [fst]. unfold open.
  rewrite openRows_writes by exact Hlen.
  cbn [items itemEls heap set_heap set_popoverOpened].
  now rewrite applyWrites_idempotent.
Qed.

(** ** The matcher that is not called *)

Lemma lex_fuzzy q :
  plain q = true -> RegExp.lex (splitJoin (chars ".*?") q) = inr (fuzzyTokens q).
Proof.
  induction q as [|c q IH]; [reflexivity|]. intros Hq.
  cbn [plain forallb] in Hq. apply andb_true_iff in Hq as [Hc Hq].
  apply negb_true_iff in Hc. specialize (IH Hq).
  destruct q as [|c' q].
  - cbn [splitJoin]. rewrite lex_cons_plain by now apply not_syntax_not_backslash.
    cbn [RegExp.lex]. now rewrite Hc.
  - change (splitJoin (chars ".*?") (c :: c' :: q))
      with (c :: "." :: "*" :: "?" :: splitJoin (chars ".*?") (c' :: q)).
    rewrite lex_cons_plain by now apply not_syntax_not_backslash.
    rewrite !lex_cons_plain by discriminate. rewrite IH, Hc. reflexivity.
Qed.

Lemma parse_fuzzy q : RegExp.parse (fuzzyTokens q) = inr (fuzzyTerms q).
Proof.
  induction q as [|c q IH]; [reflexivity|].
  destruct q as [|c' q]; [reflexivity|].
  change (fuzzyTokens (c :: c' :: q))
    with (RegExp.KChar c :: RegExp.KSyn "." :: RegExp.KSyn "*" :: RegExp.KSyn "?"
            :: fuzzyTokens (c' :: q)).
  change (fuzzyTerms (c :: c' :: q))
    with (RegExp.TAtom (RegExp.Lit c) :: RegExp.TStar RegExp.Any :: fuzzyTerms (c' :: q)).
  cbn -[fuzzyTokens fuzzyTerms]. rewrite IH. reflexivity.
Qed.

Lemma star_any_scans ts prev s :
  singleLine s = true ->
  RegExp.matchHere (RegExp.TStar RegExp.Any :: ts) prev s = RegExp.matchFrom ts prev s.
Proof.
  revert prev. induction s as [|c s IH]; intros prev Hs; [reflexivity|].
  cbn [singleLine forallb] in Hs. apply andb_true_iff in Hs as [Hc Hs].
  specialize (IH (Some c) Hs). cbn [RegExp.matchHere] in IH |- *.
  cbn [RegExp.matchFrom]. rewrite IH.
  change (RegExp.atomMatches RegExp.Any c) with (negb (RegExp.isLineTerminator c)).
  now rewrite Hc.
Qed.

Lemma subsequence_ci_tail c q s :
  subsequence_ci (c :: q) s = true -> subsequence_ci q s = true.
Proof.
  revert c q. induction s as [|d s IH]; intros c q; [discriminate|].
  cbn [subsequence_ci]. destruct q as [|c' q]; [reflexivity|].
  destruct (Ascii.eqb (Canonicalize c) (Canonicalize d)).
  - intros H. destruct (Ascii.eqb (Canonicalize c') (Canonicalize d)); [|exact H].
    now apply IH in H.
  - intros H. apply IH in H. destruct (Ascii.eqb (Canonicalize c') (Canonicalize d)); [|exact H].
    now apply IH in H.
Qed.

Lemma fuzzy_matches_subsequences q prev s :
  singleLine s = true ->
  RegExp.matchFrom (fuzzyTerms q) prev s = subsequence_ci q s.
Proof.
  revert q prev. induction s as [|d s IH]; intros q prev Hs.
  - destruct q as [|c [|c' q]]; reflexivity.
  - cbn [singleLine forallb] in Hs. apply andb_true_iff in Hs as [Hd Hs].
    cbn [RegExp.matchFrom]. rewrite (IH q (Some d) Hs).
    destruct q as [|c q]; [reflexivity|].
    assert (Hhere : RegExp.matchHere (fuzzyTerms (c :: q)) prev (d :: s)
                    = Ascii.eqb (Canonicalize c) (Canonicalize d) && subsequence_ci q s).
    { destruct q as [|c' q].
      - cbn. now destruct s.
      - change (fuzzyTerms (c :: c' :: q))
          with (RegExp.TAtom (RegExp.Lit c) :: RegExp.TStar RegExp.Any :: fuzzyTerms (c' :: q)).
        change (RegExp.matchHere (RegExp.TAtom (RegExp.Lit c) :: ?ts) prev (d :: s))
          with (RegExp.atomMatches (RegExp.Lit c) d && RegExp.matchHere ts (Some d) s).
        rewrite star_any_scans by exact Hs. now rewrite IH. }
    rewrite Hhere. cbn [subsequence_ci].
    destruct (Ascii.eqb (Canonicalize c) (Canonicalize d)); [|reflexivity].
    cbn [andb]. destruct (subsequence_ci q s) eqn:E; [reflexivity|].
    destruct (subsequence_ci (c :: q) s) eqn:E'; [|reflexivity].
    apply subsequence_ci_tail in E'. congruence.
Qed.

Lemma Canonicalize_toLowerCase1 c : Canonicalize (toLowerCase1 c) = Canonicalize c.
Proof. destruct c as [[] [] [] [] [] [] [] []]; reflexivity. Qed.

Lemma isLineTerminator_toLowerCase1 c :
  RegExp.isLineTerminator (toLowerCase1 c) = RegExp.isLineTerminator c.
Proof. destruct c as [[] [] [] [] [] [] [] []]; reflexivity. Qed.

Lemma subsequence_ci_toLowerCase q s :
  subsequence_ci q (toLowerCase s) = subsequence_ci q s.
Proof.
  revert q. induction s as [|d s IH]; intros q; [reflexivity|].
  destruct q as [|c q]; [reflexivity|].
  cbn [toLowerCase map subsequence_ci]. fold (toLowerCase s).
  now rewrite Canonicalize_toLowerCase1, !IH.
Qed.

Lemma singleLine_toLowerCase s : singleLine (toLowerCase s) = singleLine s.
Proof.
  induction s as [|d s IH]; [reflexivity|].
  cbn [toLowerCase map singleLine forallb]. fold (toLowerCase s) (singleLine (toLowerCase s)).
  fold (singleLine s). now rewrite isLineTerminator_toLowerCase1, IH.
Qed.

(** X1: [findMatchingItem], given an ASCII input without syntax characters
    and ASCII labels without line breaks, keeps the items whose label
    contains the input as a subsequence, letter case aside: the filter the
    spec describes.  The local listener does not use it, and in the remote
    listener its call is commented out. *)
Lemma findMatchingItem_subsequence input itemList :
  isASCII input = true ->
  asciiLabels itemList = true ->
  plain input = true ->
  forallb (fun item => singleLine (chars (label item))) itemList = true ->
  findMatchingItem input itemList =
  inr (List.filter (fun item => subsequence_ci input (chars (label item))) itemList).
Proof.
  intros _ _ Hq Hl. unfold findMatchingItem, RegExp.compile.
  rewrite lex_fuzzy, parse_fuzzy by exact Hq. f_equal.
  induction itemList as [|item l IH]; [reflexivity|].
  cbn [forallb] in Hl. apply andb_true_iff in Hl as [Hi Hl].
  cbn [List.filter]. rewrite (IH Hl). unfold RegExp.test.
  rewrite fuzzy_matches_subsequences by now rewrite singleLine_toLowerCase.
  now rewrite subsequence_ci_toLowerCase.
Qed.

(** Fed the escaped value, as the commented-out call would, it takes the
    backslashes as characters of their own: an escaped dot matches every
    non-empty label, and an escaped backslash makes the constructor throw. *)
Example findMatchingItem_escaped_input :
  findMatchingItem (escapeRegExp (chars ".")) [action "Rename" false 1]
    = inr [action "Rename" false 1] /\
  findMatchingItem (escapeRegExp (chars "\")) [action "Rename" false 1]
    = inl RegExp.SyntaxError.
Proof. vm_compute. auto. Qed.

(** ** The confirmation scenario, end to end *)

(** One item, Delete, that asks for confirmation: the first click arms its
    row, the second calls its action once; after [close()] and [open()] the
    next click arms the row again and calls nothing more. *)
Example remote_delete_scenario :
  (fun w => (calls (Remote.popover w), attachedRows (Remote.popover w), Remote.uncaught w))
    <$> Remote.run [Remote.Click (InRow 0); Remote.Click (InRow 0)]
          (Remote.boot [action "Delete" true 1])
  = Some ([HostAction 1], [set_confirm true (makeRow 0 (action "Delete" true 1))], []) /\
  (fun w => (calls (Remote.popover w), attachedRows (Remote.popover w), opened (Remote.popover w)))
    <$> Remote.run [Remote.Click (InRow 0); Remote.Click (InRow 0); Remote.Close;
                    Remote.Open 0; Remote.Click (InRow 0)]
          (Remote.boot [action "Delete" true 1])
  = Some ([HostAction 1], [set_confirm true (makeRow 0 (action "Delete" true 1))], true).
Proof. vm_compute. auto. Qed.

Example local_delete_scenario :
  (fun s => (calls s, attachedRows s))
    <$> Local.run [Local.Click (InRow 0); Local.Click (InRow 0)]
          (Local.render [action "Delete" true 1])
  = Some ([HostAction 1], [set_confirm true (makeRow 0 (action "Delete" true 1))]).
Proof. vm_compute. auto. Qed.

Lemma findMatchingItem_subsequence_witness :
  findMatchingItem (chars "dlt") [action "Rename" false 1; action "Delete" true 2]
  = inr [action "Delete" true 2].
Proof.
  exact (findMatchingItem_subsequence (chars "dlt")
           [action "Rename" false 1; action "Delete" true 2]
           eq_refl eq_refl eq_refl eq_refl).
Defined.

Lemma lex_trailing_backslash pre :
  RegExp.lex (splitJoin (chars ".*?") (pre ++ ["\"])) = inl RegExp.SyntaxError.
Proof.
  induction pre as [|c pre IH]; [reflexivity|].
  cbn [app]. destruct (pre ++ ["\"]) as [|d r] eqn:E.
  { destruct pre; discriminate E. }
  change (splitJoin (chars ".*?") (c :: d :: r))
    with (c :: "." :: "*" :: "?" :: splitJoin (chars ".*?") (d :: r)).
  destruct (ascii_dec c "\") as [-> | Hc].
  - rewrite lex_cons_escape. rewrite !lex_cons_plain by discriminate. now rewrite IH.
  - rewrite lex_cons_plain by exact Hc. rewrite !lex_cons_plain by discriminate.
    now rewrite IH.
Qed.

(** X2: whatever precedes it, an input that ends in a backslash makes
    [findMatchingItem] throw: the pattern it joins ends in a lone backslash,
    which [new RegExp] rejects with a SyntaxError, and no item list is
    returned. *)
Theorem findMatchingItem_trailing_backslash_throws
  (pre : list ascii) (itemList : list PopoverItem) :
  findMatchingItem (pre ++ ["\"]) itemList = inl RegExp.SyntaxError.
Proof.
  unfold findMatchingItem, RegExp.compile. now rewrite lex_trailing_backslash.
Qed.

Lemma parse_escapedToken_last c :
  RegExp.parse [escapedToken c] = inr [RegExp.TAtom (RegExp.Lit c)].
Proof.
  unfold escapedToken. destruct (isSyntaxCharacter c) eqn:Hs; [|reflexivity].
  destruct c as [[] [] [] [] [] [] [] []]; try discriminate Hs; reflexivity.
Qed.

Lemma parse_escaped q :
  RegExp.parse (map escapedToken q) = inr (map (fun c => RegExp.TAtom (RegExp.Lit c)) q).
Proof.
  induction q as [|c q IH]; [reflexivity|].
  destruct q as [|c' q]; [apply parse_escapedToken_last|].
  cbn [map] in *. rewrite parse_escapedToken by apply isStar_escapedToken.
  now rewrite IH.
Qed.

(** X3: the escaping applied to the typed value in both [keydown] listeners
    makes every character stand for itself: for ASCII text, the escaped
    value always compiles, and the pattern matches exactly the strings that
    contain the value as a run of consecutive characters, letter case
    aside. *)
Theorem escaped_value_matches_literally (q s : list ascii) :
  isASCII q = true ->
  isASCII s = true ->
  exists reg,
    RegExp.compile (escapeRegExp q) = inr reg /\
    (RegExp.test reg s = true <->
     exists pre mid post,
       s = pre ++ mid ++ post /\ map Canonicalize mid = map Canonicalize q).
Proof.
  intros _ _.
  exists (map (fun c => RegExp.TAtom (RegExp.Lit c)) q). split.
  - unfold RegExp.compile.
    rewrite <- (app_nil_r (escapeRegExp q)).
    rewrite (lex_escapeRegExp q [] []) by reflexivity.
    rewrite app_nil_r. apply parse_escaped.
  - unfold RegExp.test. rewrite matchFrom_iff. split.
    + intros (pre & rest & -> & H).
      rewrite <- (app_nil_r (map _ q)) in H. apply matchHere_literals in H.
      destruct H as (mid & post & -> & Hm & _). eauto.
    + intros (pre & mid & post & -> & Hm).
      exists pre, (mid ++ post). split; [reflexivity|].
      rewrite <- (app_nil_r (map _ q)). apply matchHere_literals.
      exists mid, post. auto.
Qed.

Lemma escaped_value_matches_literally_witness :
  isASCII (chars "a.b") = true /\
  isASCII (chars "xA.Bx") = true /\
  exists reg,
    RegExp.compile (escapeRegExp (chars "a.b")) = inr reg /\
    RegExp.test reg (chars "xA.Bx") = true.
Proof.
  split; [reflexivity|]. split; [reflexivity|].
  destruct (escaped_value_matches_literally (chars "a.b") (chars "xA.Bx") eq_refl eq_refl)
    as (reg & E & H).
  exists reg. split; [exact E|].
  apply H. exists (chars "x"), (chars "A.B"), (chars "x"). split; reflexivity.
Defined.

(** ** Properties kept by every method *)

Lemma stable_local_step P e s s' c :
  stable P -> Local.step e s = Some (s', c) -> P s -> P s'.
Proof.
  intros HP. destruct e as [value | t | h |]; cbn [Local.step].
  - intros [= E] H. pose proof (stable_local_keydown P HP value s H) as G.
    now rewrite E in G.
  - destruct t as [| | id]; [| |destruct (isAttached id s); [|discriminate]];
      apply (stable_local_click P HP).
  - intros [= E] H. pose proof (stable_open P HP h s H) as G. now rewrite E in G.
  - intros [= <- <-]. apply (stable_close P HP).
Qed.

Lemma stable_local_reachable P es l s :
  stable P -> P (Local.render l) -> Local.run es (Local.render l) = Some s -> P s.
Proof.
  intros HP. generalize (Local.render l).
  induction es as [|e es IH]; intros s0 H0; cbn [Local.run].
  - now intros [= <-].
  - destruct (Local.step e s0) as [[s1 c]|] eqn:E; [|discriminate].
    apply IH. eapply stable_local_step; eauto.
Qed.

Lemma stable_remote_step P e w w' :
  stable P -> Remote.step e w = Some w' -> P (Remote.popover w) -> P (Remote.popover w').
Proof.
  intros HP. destruct e as [value | ms | id | o | t | h |]; cbn [Remote.step].
  - intros [= <-]. rewrite remote_keydown_popover. apply (stable_interval P HP).
  - intros [= <-]. auto.
  - unfold Remote.timerFires.
    destruct (find _ _) as [[i due]|]; [|discriminate].
    destruct (Nat.leb due (Remote.now w)); [|discriminate]. now intros [= <-].
  - unfold Remote.fetchSettles. destruct (Remote.inFlight w) as [|n]; [discriminate|].
    destruct o as [|[products|]]; cbn [Remote.getData]; intros [= <-]; auto.
    apply (stable_remote_renderItems P HP).
  - assert (G : Remote.finish w <$> Remote.popoverClicked t (Remote.popover w) = Some w' ->
                P (Remote.popover w) -> P (Remote.popover w')).
    { destruct (Remote.popoverClicked t (Remote.popover w)) as [[s c]|] eqn:E; [|discriminate].
      intros [= <-] H. pose proof (stable_remote_click P HP _ _ _ _ E H).
      now destruct c. }
    destruct t as [| | id]; [exact G | exact G |].
    destruct (isAttached id (Remote.popover w)); [exact G | discriminate].
  - intros [= <-] H. pose proof (stable_open P HP h _ H) as G.
    now destruct (open h (Remote.popover w)) as [s [|e]].
  - intros [= <-]. apply (stable_close P HP).
Qed.

Lemma stable_remote_reachable P es l w :
  stable P -> P (Remote.render l) ->
  Remote.run es (Remote.boot l) = Some w -> P (Remote.popover w).
Proof.
  intros HP H0. change (P (Remote.popover (Remote.boot l))) in H0.
  revert H0. generalize (Remote.boot l).
  induction es as [|e es IH]; intros w0 H0; cbn [Remote.run].
  - now intros [= <-].
  - destruct (Remote.step e w0) as [w1|] eqn:E; [|discriminate].
    apply IH. eapply stable_remote_step; eauto.
Qed.

Lemma local_render_eq l : Local.render l = Remote.render l.
Proof.
  unfold Local.render, Remote.render.
  now rewrite local_renderItems_eq, remote_renderItems_eq.
Qed.

Lemma local_keydown_eq value s :
  exists shown, Local.keydown value s = (Local.renderItems shown s, Normal) /\
                length shown <= length (items s).
Proof.
  unfold Local.keydown. rewrite compile_wordPattern.
  eexists. split; [reflexivity|]. apply filter_length_le.
Qed.

(** What a click can do to the state, in either version: nothing, set the
    confirmation flag of the clicked row, or record one callback. *)
Lemma popoverClicked_cases t s s' c :
  Remote.popoverClicked t s = Some (s', c) \/ Local.popoverClicked t s = Some (s', c) ->
  s' = s \/
  (exists id, closest t = Some id /\ s' = setConfirmationState id s /\ c = Normal) \/
  (exists cb, s' = set_calls (calls s ++ [cb]) s /\ c = Normal).
Proof.
  unfold Remote.popoverClicked, Local.popoverClicked, callOnClick.
  destruct (closest t) as [id|]; [|intros [[= <- <-] | [= <- <-]]; auto].
  destruct (heap s !! id) as [row|]; [|intros [|]; discriminate].
  destruct (items s !! dataset_index row) as [item|]; cbn [from_option andb].
  - destruct (confirmationRequired item && negb (hasConfirmationState row)).
    + intros [[= <- <-] | [= <- <-]]; right; left; eauto.
    + destruct (onClick item) as [cb|];
        intros [[= <- <-] | [= <- <-]]; auto; right; right; eauto.
  - intros [[= <- <-] | [= <- <-]]; auto.
Qed.

Lemma openRows_frame h l i s :
  itemEls (fst (openRows h i l s)) = itemEls s /\
  items (fst (openRows h i l s)) = items s /\
  children (fst (openRows h i l s)) = children s /\
  calls (fst (openRows h i l s)) = calls s /\
  popoverOpened (fst (openRows h i l s)) = popoverOpened s /\
  Forall2 keepsButHidden (heap s) (heap (fst (openRows h i l s))).
Proof.
  revert i s. induction l as [|item l IH]; intros i s.
  - cbn. repeat split. apply Forall2_refl_rows, keepsButHidden_refl.
  - cbn [openRows]. destruct (hideIf item) as [p|]; [|apply IH].
    destruct (itemEls s !! i) as [id|].
    + destruct (IH (S i) (toggleHidden id (p h) s)) as (E1 & E2 & E3 & E4 & E5 & F).
      rewrite E1, E2, E3, E4, E5. repeat split.
      eapply Forall2_trans; [apply keepsButHidden_trans | | exact F].
      cbn [toggleHidden heap set_heap]. apply Forall2_alter_r.
      * apply Forall2_refl_rows, keepsButHidden_refl.
      * intros x y _ _ Hxy. eapply keepsButHidden_trans; [exact Hxy|].
        apply keepsButHidden_set.
    + cbn. repeat split. apply Forall2_refl_rows, keepsButHidden_refl.
Qed.

(** [open()], thrown or not, changes only hidden flags and the open flag. *)
Lemma open_frame h s :
  itemEls (fst (open h s)) = itemEls s /\
  items (fst (open h s)) = items s /\
  children (fst (open h s)) = children s /\
  calls (fst (open h s)) = calls s /\
  Forall2 keepsButHidden (heap s) (heap (fst (open h s))).
Proof.
  unfold open. destruct (openRows_frame h (items s) 0 s) as (E1 & E2 & E3 & E4 & _ & F).
  destruct (openRows h 0 (items s) s) as [s' [|e]]; cbn in *; auto.
Qed.

Lemma stable_reached P l s :
  stable P -> P (Remote.render l) -> reached l s -> P s.
Proof.
  intros HP H0 [[es E] | (es & w & E & <-)].
  - apply (stable_local_reachable P es l s HP); [now rewrite local_render_eq | exact E].
  - exact (stable_remote_reachable P es l w HP H0 E).
Qed.

(** ** What [renderItems] and [render] build *)

Lemma rowsFrom_fresh i l : forallb freshRow (rowsFrom i l) = true.
Proof. revert i. induction l as [|x l IH]; intros i; cbn; auto. Qed.

Lemma nonRows_rendered ch ids :
  nonRows (nonRows ch ++ map RowNode ids) = nonRows ch.
Proof.
  unfold nonRows. rewrite List.filter_app.
  assert (E : List.filter (fun n => negb (isRowNode n)) (map RowNode ids) = []).
  { induction ids as [|i ids IH]; cbn; auto. }
  rewrite E, app_nil_r.
  induction ch as [|[|id] ch IH]; cbn; [reflexivity | now rewrite IH | exact IH].
Qed.

(** X4: [renderItems(newItems)], in either version and from any state,
    leaves attached to the wrapper exactly one row per item of [newItems],
    in order, stamped 0, 1, 2, ..., each shown and not armed (so a
    confirmation pending on an earlier row does not survive a re-render); the
    wrapper's other children, the open flag and the record of callbacks are
    untouched, no callback is invoked, and only the remote version assigns
    [this.items]. *)
Theorem renderItems_rebuilds_rows (newItems : list PopoverItem) (s : State) :
  (attachedRows (Remote.renderItems newItems s) = rowsFrom 0 newItems /\
   attachedRows (Local.renderItems newItems s) = rowsFrom 0 newItems) /\
  forallb freshRow (rowsFrom 0 newItems) = true /\
  (nonRows (children (Remote.renderItems newItems s)) = nonRows (children s) /\
   nonRows (children (Local.renderItems newItems s)) = nonRows (children s)) /\
  (opened (Remote.renderItems newItems s) = opened s /\
   opened (Local.renderItems newItems s) = opened s) /\
  (calls (Remote.renderItems newItems s) = calls s /\
   calls (Local.renderItems newItems s) = calls s) /\
  items (Remote.renderItems newItems s) = newItems /\
  items (Local.renderItems newItems s) = items s.
Proof.
  split; [split; [apply remote_renderItems_attached | apply local_renderItems_attached]|].
  split; [apply rowsFrom_fresh|].
  rewrite remote_renderItems_eq, local_renderItems_eq. cbn [children opened popoverOpened calls items].
  fold (nonRows (children s)). rewrite nonRows_rendered. auto 10.
Qed.

(** X5: [render()] gives, in both versions, a closed popover whose wrapper
    holds the search field first and then one row per item in order; the
    rows are those built from the items, [itemEls] refers to exactly these
    rows in order, no timeout is pending in [this.interval] and no callback
    has been invoked. *)
Theorem render_initial_state (l : list PopoverItem) :
  Local.render l = Remote.render l /\
  children (Remote.render l) = SearchInput :: map RowNode (seq 0 (length l)) /\
  attachedRows (Remote.render l) = rowsFrom 0 l /\
  itemEls (Remote.render l) = seq 0 (length l) /\
  items (Remote.render l) = l /\
  opened (Remote.render l) = false /\
  interval (Remote.render l) = None /\
  calls (Remote.render l) = [].
Proof.
  split; [apply local_render_eq|].
  split; [|split; [apply remote_renderItems_attached|]];
    unfold Remote.render; now rewrite remote_renderItems_eq.
Qed.

(** ** [itemEls] only grows *)

Lemma itemEls_grow_stable :
  stable (fun s => itemElsComplete s /\ newestAttached s).
Proof.
  assert (R : forall l s s',
             itemEls s' = itemEls s ++ seq (length (heap s)) (length l) ->
             heap s' = heap s ++ rowsFrom 0 l ->
             rowNodes (children s') = seq (length (heap s)) (length l) ->
             itemElsComplete s -> itemElsComplete s' /\ newestAttached s').
  { unfold itemElsComplete, newestAttached. intros l s s' E1 E2 E3 H.
    rewrite E1, E2, E3, H, length_app, length_rowsFrom. split.
    - now rewrite seq_app.
    - exists (length l). split; [lia|]. f_equal. lia. }
  assert (K : forall s s', itemEls s' = itemEls s -> children s' = children s ->
                length (heap s') = length (heap s) ->
                itemElsComplete s /\ newestAttached s ->
                itemElsComplete s' /\ newestAttached s').
  { unfold itemElsComplete, newestAttached. intros s s' -> -> ->. auto. }
  constructor.
  - intros l s [H _]. apply (R l s); auto.
    + now rewrite remote_renderItems_eq.
    + now rewrite remote_renderItems_eq.
    + apply remote_renderItems_rowNodes.
  - intros v s [H _]. destruct (local_keydown_eq v s) as (shown & -> & _). cbn [fst].
    apply (R shown s); auto.
    + now rewrite local_renderItems_eq.
    + now rewrite local_renderItems_eq.
    + apply local_renderItems_rowNodes.
  - intros t s s' c E H.
    destruct (popoverClicked_cases t s s' c (or_introl E))
      as [-> | [(id & _ & -> & _) | (cb & -> & _)]]; auto.
    apply (K s); auto. cbn. apply length_alter.
  - intros t s s' c E H.
    destruct (popoverClicked_cases t s s' c (or_intror E))
      as [-> | [(id & _ & -> & _) | (cb & -> & _)]]; auto.
    apply (K s); auto. cbn. apply length_alter.
  - intros h s H. destruct (open_frame h s) as (E1 & _ & E3 & _ & F).
    apply (K s); auto. symmetry. exact (Forall2_length _ _ _ F).
  - intros s H. rewrite close_eq. apply (K s); auto. cbn.
    symmetry. exact (Forall2_length _ _ _ (clearAll_related (itemEls s) (heap s))).
  - intros v s H. exact H.
Qed.

(** X6: in every state either version reaches from [render()],
    [this.itemEls] refers to every row element created so far, in the order
    of creation, and the rows attached to the wrapper are the most recently
    created ones: [itemEls] never drops the rows an earlier [renderItems]
    detached. *)
Theorem itemEls_lists_every_row_created (l : list PopoverItem) (s : State) :
  reached l s ->
  itemEls s = seq 0 (length (heap s)) /\
  exists k, k <= length (heap s) /\
            rowNodes (children s) = seq (length (heap s) - k) k.
Proof.
  apply (stable_reached (fun s => itemElsComplete s /\ newestAttached s));
    [apply itemEls_grow_stable|].
  unfold itemElsComplete, newestAttached, Remote.render.
  rewrite remote_renderItems_rowNodes, remote_renderItems_eq. cbn.
  rewrite length_rowsFrom. split; [reflexivity|].
  exists (length l). split; [lia|]. f_equal. lia.
Qed.

Lemma itemEls_lists_every_row_created_witness :
  reached [action "Rename" false 1; action "Copy" false 2]
    (fst (Local.keydown (chars "copy")
            (Local.render [action "Rename" false 1; action "Copy" false 2]))) /\
  itemEls (fst (Local.keydown (chars "copy")
                  (Local.render [action "Rename" false 1; action "Copy" false 2])))
  = [0; 1; 2].
Proof.
  assert (H : reached [action "Rename" false 1; action "Copy" false 2]
                (fst (Local.keydown (chars "copy")
                        (Local.render [action "Rename" false 1; action "Copy" false 2])))).
  { left. exists [Local.Keydown (chars "copy")]. vm_compute. reflexivity. }
  split; [exact H|].
  exact (proj1 (itemEls_lists_every_row_created _ _ H)).
Defined.

Lemma open_idempotent_witness :
  open 1 (fst (open 1 (Remote.render [hiddenWhenBusy "Paste" 1; action "Copy" false 2])))
  = open 1 (Remote.render [hiddenWhenBusy "Paste" 1; action "Copy" false 2]).
Proof.
  apply (open_idempotent 1 (Remote.render [hiddenWhenBusy "Paste" 1; action "Copy" false 2])).
  cbn. lia.
Defined.

Lemma two_clicks_confirm_witness :
  Remote.popoverClicked (InRow 0) (Remote.render [action "Delete" true 1])
  = Some (armedDelete, Normal) /\
  Remote.popoverClicked (InRow 0) armedDelete
  = Some (set_calls [HostAction 1] armedDelete, Normal).
Proof.
  pose proof (two_clicks_confirm 0 (makeRow 0 (action "Delete" true 1))
                (action "Delete" true 1) (HostAction 1)
                (Remote.render [action "Delete" true 1])
                eq_refl eq_refl eq_refl eq_refl eq_refl) as H.
  cbv zeta in H. destruct H as ((H1 & _) & (H2 & _) & _).
  split; [exact H1 | exact H2].
Defined.

(** ** [open()] and [close()] in reachable states *)

Lemma reached_wellFormed l s : reached l s -> wellFormed s = true.
Proof.
  intros [[es E] | (es & w & E & <-)].
  - exact (local_reachable_wellFormed es l s E).
  - exact (remote_reachable_wellFormed es l w E).
Qed.

(** X9: in every state either version reaches from [render()], [open()]
    does not throw; it marks the wrapper open and changes nothing else but
    hidden flags: the items, the wrapper's children, [itemEls], the record
    of callbacks, and each row's stamp, content and confirmation flag stay. *)
Theorem open_never_throws_when_reached (l : list PopoverItem) (s : State) (h : Host) :
  reached l s ->
  snd (open h s) = Normal /\
  opened (fst (open h s)) = true /\
  items (fst (open h s)) = items s /\
  children (fst (open h s)) = children s /\
  itemEls (fst (open h s)) = itemEls s /\
  calls (fst (open h s)) = calls s /\
  Forall2 keepsButHidden (heap s) (heap (fst (open h s))).
Proof.
  intros Hr. apply reached_wellFormed, wellFormed_iff in Hr as (_ & Hlen & _).
  destruct (open_spec h s Hlen) as (hp & E & F).
  destruct (open_frame h s) as (E1 & E2 & E3 & E4 & F').
  rewrite E in *. cbn [fst snd] in *. auto 10.
Qed.

Lemma open_never_throws_when_reached_witness :
  reached [hiddenWhenBusy "Paste" 1]
    (fst (Local.keydown (chars "paste") (Local.render [hiddenWhenBusy "Paste" 1]))) /\
  snd (open 1 (fst (Local.keydown (chars "paste") (Local.render [hiddenWhenBusy "Paste" 1]))))
  = Normal.
Proof.
  assert (H : reached [hiddenWhenBusy "Paste" 1]
                (fst (Local.keydown (chars "paste")
                        (Local.render [hiddenWhenBusy "Paste" 1])))).
  { left. exists [Local.Keydown (chars "paste")]. vm_compute. reflexivity. }
  split; [exact H|].
  exact (proj1 (open_never_throws_when_reached _ _ 1 H)).
Defined.

Lemma clearAll_lookup ids hp j :
  clearAll ids hp !! j = cleared ids j <$> hp !! j.
Proof.
  revert hp. induction ids as [|a ids IH]; intros hp.
  - cbn. now destruct (hp !! j).
  - cbn [clearAll fold_left]. fold (clearAll ids (alter (set_confirm false) a hp)).
    rewrite IH. unfold cleared. cbn [existsb].
    destruct (Nat.eqb_spec j a) as [-> | Hne].
    + rewrite list_lookup_alter_eq. destruct (hp !! a) as [r|]; [|reflexivity].
      cbn. now destruct (existsb (Nat.eqb a) ids).
    + rewrite list_lookup_alter_ne by congruence. reflexivity.
Qed.

Lemma clearAll_idempotent ids hp : clearAll ids (clearAll ids hp) = clearAll ids hp.
Proof.
  apply list_eq. intros j. rewrite !clearAll_lookup.
  destruct (hp !! j) as [r|]; [|reflexivity]. cbn. unfold cleared.
  now destruct (existsb (Nat.eqb j) ids).
Qed.

(** X11: [close()], from any state, clears the open flag and changes nothing
    else but confirmation flags, which it only clears: the items, the
    wrapper's children, [itemEls], the record of callbacks and each row's
    stamp, content and hidden flag stay, so a row hidden by [open()] is still
    hidden after [close()]; and closing twice is the same as closing once. *)
Theorem close_keeps_all_but_confirmation (s : State) :
  opened (close s) = false /\
  items (close s) = items s /\
  children (close s) = children s /\
  itemEls (close s) = itemEls s /\
  calls (close s) = calls s /\
  Forall2 clearedOrKept (heap s) (heap (close s)) /\
  close (close s) = close s.
Proof.
  rewrite !close_eq. cbn [opened popoverOpened items children itemEls calls heap
                            set_heap set_popoverOpened].
  repeat split; [apply clearAll_related|].
  now rewrite clearAll_idempotent.
Qed.

(** ** Clicks in reachable states *)

(** X13: in every state the remote version reaches from [render()], a
    click on a row attached to the wrapper is resolved to the item that row
    shows (the item at the row's stamp in [this.items], from which the row's
    content was built), and arms the row or calls that item's [onClick]
    according to the confirmation policy. *)
Theorem remote_click_resolves_shown_item_when_reached
  (es : list Remote.Event) (l : list PopoverItem) (w : Remote.World) (id : nat) (row : Row) :
  Remote.run es (Remote.boot l) = Some w ->
  isAttached id (Remote.popover w) = true ->
  heap (Remote.popover w) !! id = Some row ->
  exists item,
    items (Remote.popover w) !! dataset_index row = Some item /\
    body row = body (makeRow (dataset_index row) item) /\
    Remote.popoverClicked (InRow id) (Remote.popover w) =
    Some (if confirmationRequired item && negb (itemConfirmState row)
          then (setConfirmationState id (Remote.popover w), Normal)
          else callOnClick item (Remote.popover w)).
Proof.
  intros Hrun Hatt Hrow.
  apply remote_click_resolves_shown_item; [|  | exact Hrow].
  - exact (remote_reachable_aligned es l w Hrun).
  - unfold isAttached in Hatt. apply existsb_exists in Hatt as (x & Hx & E).
    apply Nat.eqb_eq in E. now subst x.
Qed.

Lemma remote_click_resolves_shown_item_when_reached_witness :
  exists w,
    Remote.run phoneSearch (Remote.boot [action "Rename" false 1]) = Some w /\
    isAttached 2 (Remote.popover w) = true /\
    heap (Remote.popover w) !! 2 = Some (makeRow 1 (Remote.productItem phone)) /\
    exists item,
      items (Remote.popover w) !! 1 = Some item /\
      body (makeRow 1 (Remote.productItem phone)) = body (makeRow 1 item).
Proof.
  destruct (Remote.run phoneSearch (Remote.boot [action "Rename" false 1])) as [w|] eqn:E.
  - assert (Ew := E). vm_compute in Ew. injection Ew as Ew.
    exists w. split; [reflexivity|].
    assert (Ha : isAttached 2 (Remote.popover w) = true) by (now rewrite <- Ew).
    assert (Hr : heap (Remote.popover w) !! 2 = Some (makeRow 1 (Remote.productItem phone)))
      by (now rewrite <- Ew).
    split; [exact Ha|]. split; [exact Hr|].
    destruct (remote_click_resolves_shown_item_when_reached phoneSearch
                [action "Rename" false 1] w 2 _ E Ha Hr) as (item & H1 & H2 & _).
    exists item. auto.
  - vm_compute in E. discriminate E.
Defined.

Lemma setConfirmationState_related id s :
  Forall2 armedOrKept (heap s) (heap (setConfirmationState id s)).
Proof.
  cbn. apply Forall2_alter_r; [apply Forall2_refl_rows; now left|].
  intros x y _ _ [-> | ->]; now right.
Qed.

(** X14: what one click can change, in either version: it never touches the
    items, the wrapper's children, [itemEls], the open flag or any hidden
    flag, never clears a confirmation flag, and invokes at most one
    callback; it either leaves the rows alone, or sets confirmation flags
    and invokes nothing; and a click that throws changes nothing at all. *)
Theorem click_arms_or_calls_once (t : Target) (s s' : State) (c : Completion) :
  Remote.popoverClicked t s = Some (s', c) \/ Local.popoverClicked t s = Some (s', c) ->
  items s' = items s /\ children s' = children s /\ itemEls s' = itemEls s /\
  opened s' = opened s /\
  Forall2 armedOrKept (heap s) (heap s') /\
  ((heap s' = heap s /\ (calls s' = calls s \/ exists cb, calls s' = calls s ++ [cb])) \/
   calls s' = calls s) /\
  (c <> Normal -> s' = s).
Proof.
  intros H.
  destruct (popoverClicked_cases t s s' c H)
    as [-> | [(id & _ & -> & ->) | (cb & -> & ->)]].
  - repeat split; auto. apply Forall2_refl_rows. now left.
  - repeat split; auto; [apply setConfirmationState_related | congruence].
  - repeat split; eauto; [|congruence]. apply Forall2_refl_rows. now left.
Qed.

Lemma click_arms_or_calls_once_witness :
  calls armedDelete = calls (Remote.render [action "Delete" true 1]) /\
  items armedDelete = items (Remote.render [action "Delete" true 1]).
Proof.
  destruct (click_arms_or_calls_once (InRow 0) (Remote.render [action "Delete" true 1])
              armedDelete Normal (or_introl eq_refl)) as (H1 & _ & _ & _ & _ & _ & _).
  split; [reflexivity | exact H1].
Defined.

(** ** The local search, whatever came before *)

Lemma local_step_items e s s' c :
  Local.step e s = Some (s', c) -> items s' = items s.
Proof.
  destruct e as [value | t | h |]; cbn [Local.step].
  - intros [= E]. destruct (local_keydown_eq value s) as (shown & E' & _).
    rewrite E' in E. injection E as <- _. now rewrite local_renderItems_eq.
  - intros E.
    assert (G : Local.popoverClicked t s = Some (s', c)).
    { destruct t as [| | id]; auto. now destruct (isAttached id s). }
    destruct (popoverClicked_cases t s s' c (or_intror G))
      as [-> | [(id & _ & -> & _) | (cb & -> & _)]]; reflexivity.
  - intros [= E]. destruct (open_frame h s) as (_ & E2 & _). now rewrite E in E2.
  - intros [= <- _]. now rewrite close_eq.
Qed.

Lemma local_run_items es s s' : Local.run es s = Some s' -> items s' = items s.
Proof.
  revert s. induction es as [|e es IH]; intros s; cbn [Local.run].
  - now intros [= <-].
  - destruct (Local.step e s) as [[s1 c]|] eqn:E; [|discriminate].
    intros H. rewrite (IH _ H). exact (local_step_items _ _ _ _ E).
Qed.

Lemma local_keydown_attached value s :
  attachedRows (fst (Local.keydown value s)) =
  rowsFrom 0
    (List.filter
       (fun item =>
          RegExp.test
            (RegExp.TWordB ::
               map (fun c => RegExp.TAtom (RegExp.Lit c)) (trim value) ++ [RegExp.TWordB])
            (chars (label item)))
       (items s)).
Proof.
  unfold Local.keydown. rewrite compile_wordPattern. cbn [fst].
  apply local_renderItems_attached.
Qed.

(** X15: in the local version no event changes [this.items], so the search
    always filters the list given to the constructor: whatever keystrokes,
    clicks, [open()] and [close()] calls came before, a keystroke shows the
    same rows as it would right after [render()]; successive searches do not
    narrow one another. *)
Theorem local_search_ignores_history
  (es : list Local.Event) (l : list PopoverItem) (s : State) (value : list ascii) :
  Local.run es (Local.render l) = Some s ->
  items s = l /\
  attachedRows (fst (Local.keydown value s))
  = attachedRows (fst (Local.keydown value (Local.render l))).
Proof.
  intros Hrun. pose proof (local_run_items _ _ _ Hrun) as E.
  assert (E0 : items (Local.render l) = l)
    by (unfold Local.render; now rewrite local_renderItems_eq).
  split; [congruence|]. rewrite !local_keydown_attached. congruence.
Qed.

Lemma local_search_ignores_history_witness :
  attachedRows
    (fst (Local.keydown (chars "copy")
       (fst (Local.keydown (chars "rename")
          (Local.render [action "Rename" false 1; action "Copy" false 2])))))
  = attachedRows
      (fst (Local.keydown (chars "copy")
         (Local.render [action "Rename" false 1; action "Copy" false 2]))).
Proof.
  apply (local_search_ignores_history [Local.Keydown (chars "rename")]
           [action "Rename" false 1; action "Copy" false 2]).
  vm_compute. reflexivity.
Defined.

Lemma rowsFrom_In i l x :
  In x l -> exists k, rowsFrom i l !! k = Some (makeRow (i + k) x).
Proof.
  intros Hin. apply list_elem_of_In, list_elem_of_lookup in Hin as [k Hk].
  exists k. now rewrite lookup_rowsFrom, Hk.
Qed.

(** X16: in the local version, typing the whole label of an item, in any
    letter case and with any surrounding white space, shows that item's row,
    provided the label begins and ends with a word character. *)
Theorem local_search_finds_whole_label
  (item : PopoverItem) (value : list ascii) (s : State) :
  In item (items s) ->
  map Canonicalize (trim value) = map Canonicalize (chars (label item)) ->
  RegExp.isWord (head (chars (label item))) = true ->
  RegExp.isWord (last (chars (label item))) = true ->
  exists k, attachedRows (fst (Local.keydown value s)) !! k = Some (makeRow k item).
Proof.
  intros Hin Hq Hh Hl. rewrite local_keydown_attached.
  apply (rowsFrom_In 0). apply filter_In. split; [exact Hin|].
  apply test_wordPattern. exists [], (chars (label item)), [].
  rewrite app_nil_r. cbn [app]. repeat split; [now symmetry | |].
  - unfold RegExp.boundary. cbn [last RegExp.isWord]. now rewrite Hh.
  - unfold RegExp.boundary. cbn [head RegExp.isWord]. now rewrite Hl.
Qed.

Lemma local_search_finds_whole_label_witness :
  exists k,
    attachedRows
      (fst (Local.keydown (chars " COPY ")
              (Local.render [action "Rename" false 1; action "Copy" false 2]))) !! k
    = Some (makeRow k (action "Copy" false 2)).
Proof.
  apply (local_search_finds_whole_label (action "Copy" false 2) (chars " COPY ")
           (Local.render [action "Rename" false 1; action "Copy" false 2]));
    [right; left; reflexivity | reflexivity | reflexivity | reflexivity].
Defined.

(** A label that ends in a character that is no word character is not found
    by typing it in full: no word boundary follows it. *)
Example local_search_misses_label_ending_in_symbol :
  attachedRows (fst (Local.keydown (chars "c++") (Local.render [action "C++" false 1]))) = [].
Proof. vm_compute. reflexivity. Qed.

(** ** Clicks never meet a missing item *)

Lemma stampsInRange_stable : stable stampsInRange.
Proof.
  assert (R : forall l s s',
             rowNodes (children s') = seq (length (heap s)) (length l) ->
             heap s' = heap s ++ rowsFrom 0 l ->
             length l <= length (items s') -> stampsInRange s').
  { intros l s s' E1 E2 Hlen id row Hin Hrow. rewrite E1 in Hin.
    apply in_seq in Hin as [Hlo Hhi].
    rewrite E2, lookup_app_r, lookup_rowsFrom in Hrow by lia.
    destruct (l !! (id - length (heap s))) as [item|] eqn:El; [|discriminate Hrow].
    injection Hrow as <-. cbn. apply lookup_lt_Some in El. lia. }
  assert (K : forall (Q : Row -> Row -> Prop) s s',
             (forall r r', Q r r' -> dataset_index r' = dataset_index r) ->
             Forall2 Q (heap s) (heap s') -> children s' = children s ->
             items s' = items s -> stampsInRange s -> stampsInRange s').
  { intros Q s s' HQ F Ec Ei H id row Hin Hrow. rewrite Ec in Hin. rewrite Ei.
    destruct (Forall2_lookup_r _ _ _ _ _ F Hrow) as (r0 & Hr0 & Hrel).
    rewrite (HQ _ _ Hrel). eapply H; eauto. }
  assert (C : forall t s s' c,
             Remote.popoverClicked t s = Some (s', c) \/
             Local.popoverClicked t s = Some (s', c) ->
             stampsInRange s -> stampsInRange s').
  { intros t s s' c E H.
    destruct (popoverClicked_cases t s s' c E)
      as [-> | [(id & _ & -> & _) | (cb & -> & _)]]; auto.
    apply (K armedOrKept s); auto; [|apply setConfirmationState_related].
    now intros r r' [-> | ->]. }
  constructor.
  - intros l s _. apply (R l s).
    + apply remote_renderItems_rowNodes.
    + now rewrite remote_renderItems_eq.
    + rewrite remote_renderItems_eq. cbn. lia.
  - intros v s _. destruct (local_keydown_eq v s) as (shown & -> & Hlen). cbn [fst].
    apply (R shown s).
    + apply local_renderItems_rowNodes.
    + now rewrite local_renderItems_eq.
    + now rewrite local_renderItems_eq.
  - intros t s s' c E. apply (C t s s' c). now left.
  - intros t s s' c E. apply (C t s s' c). now right.
  - intros h s H. destruct (open_frame h s) as (_ & E2 & E3 & _ & F).
    apply (K keepsButHidden s); auto.
    intros r r' Hr. now apply keepsButHidden_fields in Hr as (-> & _).
  - intros s H. rewrite close_eq.
    apply (K clearedOrKept s); auto; [|apply clearAll_related].
    intros r r' Hr. now apply clearedOrKept_fields in Hr as (-> & _).
  - intros v s H. exact H.
Qed.

(** X21: in every state either version reaches from [render()], the stamp
    of a row attached to the wrapper is a position of [this.items]; so a
    click on such a row always finds an item there, and never fails for want
    of one: it arms the row or goes on to call that item's [onClick],
    according to the confirmation policy. *)
Theorem click_always_finds_an_item
  (l : list PopoverItem) (s : State) (id : nat) (row : Row) :
  reached l s ->
  In id (rowNodes (children s)) ->
  heap s !! id = Some row ->
  exists item,
    items s !! dataset_index row = Some item /\
    Remote.popoverClicked (InRow id) s =
    Some (if confirmationRequired item && negb (itemConfirmState row)
          then (setConfirmationState id s, Normal)
          else callOnClick item s) /\
    Local.popoverClicked (InRow id) s =
    Some (if confirmationRequired item && negb (itemConfirmState row)
          then (setConfirmationState id s, Normal)
          else callOnClick item s).
Proof.
  intros Hr Hin Hrow.
  assert (Hs : stampsInRange s).
  { apply (stable_reached stampsInRange l s stampsInRange_stable); [|exact Hr].
    unfold Remote.render. intros id0 row0 Hin0 Hrow0.
    rewrite remote_renderItems_rowNodes in Hin0. apply in_seq in Hin0 as [_ Hhi].
    rewrite remote_renderItems_eq in Hrow0 |- *. cbn in Hrow0, Hhi |- *.
    rewrite lookup_rowsFrom in Hrow0.
    destruct (l !! id0) as [item|] eqn:El; [|discriminate Hrow0].
    injection Hrow0 as <-. cbn. lia. }
  destruct (lookup_lt_is_Some_2 (items s) (dataset_index row) (Hs id row Hin Hrow))
    as [item Hitem].
  exists item. split; [exact Hitem|].
  unfold Remote.popoverClicked, Local.popoverClicked, hasConfirmationState. cbn [closest].
  rewrite Hrow, Hitem. cbn [from_option].
  now destruct (confirmationRequired item && negb (itemConfirmState row)).
Qed.

Lemma click_always_finds_an_item_witness :
  reached [action "Rename" false 1; action "Copy" false 2]
    (Remote.render [action "Rename" false 1; action "Copy" false 2]) /\
  exists item,
    items (Remote.render [action "Rename" false 1; action "Copy" false 2])
      !! dataset_index (makeRow 1 (action "Copy" false 2)) = Some item.
Proof.
  assert (H : reached [action "Rename" false 1; action "Copy" false 2]
                (Remote.render [action "Rename" false 1; action "Copy" false 2])).
  { left. exists []. reflexivity. }
  split; [exact H|].
  destruct (click_always_finds_an_item _ _ 1 (makeRow 1 (action "Copy" false 2))
              H (or_intror (or_introl eq_refl)) eq_refl) as (item & Hitem & _).
  exists item. exact Hitem.
Defined.

(** ** A successful search *)

(** X17: when a fetch settles with a list of products, the popover is
    re-rendered with the first two of the current items followed by one item
    per product, in order; each of these is labelled with the product's
    title, asks for no confirmation, has no [hideIf] and has an [onClick];
    the rows attached are those of the new items; the open flag, the record
    of callbacks, [this.interval], the pending timeouts, the console and the
    unhandled errors are as before, and one fetch fewer is in flight. *)
Theorem fetch_success_renders_head_and_products
  (ps : list Remote.Product) (w : Remote.World) (n : nat) :
  Remote.inFlight w = S n ->
  exists w',
    Remote.fetchSettles (Remote.Body (Some ps)) w = Some w' /\
    items (Remote.popover w')
    = firstn 2 (items (Remote.popover w)) ++ map Remote.productItem ps /\
    attachedRows (Remote.popover w') = rowsFrom 0 (items (Remote.popover w')) /\
    map label (map Remote.productItem ps) = map Remote.title ps /\
    Forall (fun item => confirmationRequired item = false /\ hideIf item = None /\
                        onClick item <> None) (map Remote.productItem ps) /\
    opened (Remote.popover w') = opened (Remote.popover w) /\
    calls (Remote.popover w') = calls (Remote.popover w) /\
    interval (Remote.popover w') = interval (Remote.popover w) /\
    Remote.timers w' = Remote.timers w /\
    Remote.console w' = Remote.console w /\
    Remote.uncaught w' = Remote.uncaught w /\
    Remote.inFlight w' = n.
Proof.
  intros H. unfold Remote.fetchSettles. rewrite H. cbn [Remote.getData].
  eexists. split; [reflexivity|].
  cbn [Remote.popover Remote.set_popover Remote.set_inFlight Remote.timers
       Remote.console Remote.uncaught Remote.inFlight].
  rewrite remote_renderItems_attached, remote_renderItems_eq.
  cbn [items opened popoverOpened calls interval].
  repeat split.
  - induction ps as [|p ps IH]; cbn; [reflexivity | now rewrite IH].
  - induction ps as [|p ps IH]; cbn [map]; constructor; [|exact IH].
    cbn. repeat split. discriminate.
Qed.

Lemma fetch_success_renders_head_and_products_witness :
  exists w w',
    Remote.run [Remote.Keydown (chars "a"); Remote.Elapse 500; Remote.TimerFires 1]
      (Remote.boot [action "Rename" false 1; action "Copy" false 2; action "Delete" true 3])
    = Some w /\
    Remote.inFlight w = 1 /\
    Remote.fetchSettles (Remote.Body (Some [phone])) w = Some w' /\
    items (Remote.popover w')
    = [action "Rename" false 1; action "Copy" false 2; Remote.productItem phone].
Proof.
  destruct (Remote.run [Remote.Keydown (chars "a"); Remote.Elapse 500; Remote.TimerFires 1]
              (Remote.boot [action "Rename" false 1; action "Copy" false 2;
                            action "Delete" true 3])) as [w|] eqn:E.
  - assert (Ew := E). vm_compute in Ew. injection Ew as Ew.
    assert (Hf : Remote.inFlight w = 1) by (now rewrite <- Ew).
    destruct (fetch_success_renders_head_and_products [phone] w 0 Hf)
      as (w' & E1 & E2 & _).
    exists w, w'. split; [reflexivity|]. split; [exact Hf|]. split; [exact E1|].
    rewrite E2. now rewrite <- Ew.
  - vm_compute in E. discriminate E.
Defined.

Lemma remote_step_items e w w' :
  Remote.step e w = Some w' ->
  items (Remote.popover w') = items (Remote.popover w) \/
  exists ps, items (Remote.popover w')
             = firstn 2 (items (Remote.popover w)) ++ map Remote.productItem ps.
Proof.
  destruct e as [value | ms | id | o | t | h |]; cbn [Remote.step].
  - intros [= <-]. left. now rewrite remote_keydown_popover.
  - intros [= <-]. now left.
  - unfold Remote.timerFires.
    destruct (find _ _) as [[i due]|]; [|discriminate].
    destruct (Nat.leb due (Remote.now w)); [|discriminate]. intros [= <-]. now left.
  - unfold Remote.fetchSettles. destruct (Remote.inFlight w) as [|n]; [discriminate|].
    destruct o as [|[ps|]]; cbn [Remote.getData]; intros [= <-]; [now left | | now left].
    right. exists ps. cbn. now rewrite remote_renderItems_eq.
  - intros E. left.
    assert (G : exists s c, Remote.popoverClicked t (Remote.popover w) = Some (s, c) /\
                            Remote.popover w' = s).
    { assert (G0 : Remote.finish w <$> Remote.popoverClicked t (Remote.popover w) = Some w').
      { destruct t as [| | id]; auto. now destruct (isAttached id (Remote.popover w)). }
      destruct (Remote.popoverClicked t (Remote.popover w)) as [[s c]|]; [|discriminate G0].
      injection G0 as <-. exists s, c. split; [reflexivity|]. now destruct c. }
    destruct G as (s & c & G & ->).
    destruct (popoverClicked_cases t _ s c (or_introl G))
      as [-> | [(id & _ & -> & _) | (cb & -> & _)]]; reflexivity.
  - intros [= <-]. left. destruct (open_frame h (Remote.popover w)) as (_ & E2 & _).
    now destruct (open h (Remote.popover w)) as [s [|e]].
  - intros [= <-]. left. cbn. now rewrite close_eq.
Qed.

(** X18: in the remote version started with at least two items, [this.items]
    is at every moment either the constructor's list or its first two items
    followed by fetched products: the first two items are kept by every
    search, and the items after them are dropped by the first search that
    succeeds and never come back. *)
Theorem remote_keeps_two_head_items
  (es : list Remote.Event) (l : list PopoverItem) (w : Remote.World) :
  2 <= length l ->
  Remote.run es (Remote.boot l) = Some w ->
  items (Remote.popover w) = l \/
  exists ps, items (Remote.popover w) = firstn 2 l ++ map Remote.productItem ps.
Proof.
  intros Hlen.
  assert (H0 : headAndProducts l (Remote.popover (Remote.boot l))).
  { left. cbn. unfold Remote.render. now rewrite remote_renderItems_eq. }
  revert H0. generalize (Remote.boot l).
  induction es as [|e es IH]; intros w0 H0; cbn [Remote.run].
  - now intros [= <-].
  - destruct (Remote.step e w0) as [w1|] eqn:E; [|discriminate].
    apply IH. unfold headAndProducts in *.
    destruct (remote_step_items e w0 w1 E) as [E1 | (ps & E1)]; rewrite E1; [exact H0|].
    right. exists ps. f_equal. destruct H0 as [-> | (ps0 & ->)]; [reflexivity|].
    rewrite firstn_app, length_firstn, firstn_firstn.
    replace (Init.Nat.min 2 (length l)) with 2 by lia.
    cbn. now rewrite app_nil_r.
Qed.

Lemma remote_keeps_two_head_items_witness :
  exists w,
    Remote.run phoneSearch
      (Remote.boot [action "Rename" false 1; action "Copy" false 2; action "Delete" true 3])
    = Some w /\
    (items (Remote.popover w)
     = [action "Rename" false 1; action "Copy" false 2; action "Delete" true 3] \/
     exists ps,
       items (Remote.popover w)
       = firstn 2 [action "Rename" false 1; action "Copy" false 2; action "Delete" true 3]
         ++ map Remote.productItem ps).
Proof.
  destruct (Remote.run phoneSearch
              (Remote.boot [action "Rename" false 1; action "Copy" false 2;
                            action "Delete" true 3])) as [w|] eqn:E.
  - exists w. split; [reflexivity|].
    apply (remote_keeps_two_head_items phoneSearch _ w); [cbn; lia | exact E].
  - vm_compute in E. discriminate E.
Defined.

(** With a single item at the start, the head of two is filled with a
    fetched product, which the next search then repeats. *)
Example remote_short_head_takes_a_product :
  (fun w => map label (items (Remote.popover w)))
    <$> Remote.run (phoneSearch ++
                      [Remote.Keydown (chars "b"); Remote.Elapse 500; Remote.TimerFires 2;
                       Remote.FetchSettles (Remote.Body (Some [phone]))])
          (Remote.boot [action "Rename" false 1])
  = Some ["Rename"; "Phone"; "Phone"]%string.
Proof. vm_compute. reflexivity. Qed.

(** ** Timeouts and fetch cycles, in any run *)

Lemma singlePending_step e w w' :
  Remote.step e w = Some w' -> singlePending w -> singlePending w'.
Proof.
  intros Hstep HQ. pose proof (remote_step_timing e w w' Hstep) as Hsame.
  destruct e as [value | ms | id | o | t | h |];
    try (destruct Hsame as (Et & _ & _ & Ei); unfold singlePending;
         rewrite Et, Ei; exact HQ).
  - cbn [Remote.step] in Hstep. injection Hstep as <-.
    assert (Hp : forall t, In t (Remote.timers w) ->
                           interval (Remote.popover w) = Some (fst t)).
    { destruct HQ as [-> | (id & due & -> & ->)]; [intros t [] | intros t [<- | []]; reflexivity]. }
    destruct (remote_keydown_timers value w Hp) as (Et & _).
    right. exists (Remote.nextTimerId w), (Remote.now w + 500).
    split; [exact Et|]. now rewrite remote_keydown_popover.
  - cbn [Remote.step] in Hstep. injection Hstep as <-. exact HQ.
  - cbn [Remote.step] in Hstep. unfold Remote.timerFires in Hstep. left.
    destruct HQ as [E | (id' & due & E & _)]; rewrite E in Hstep; [discriminate Hstep|].
    cbn [find fst] in Hstep. destruct (Nat.eqb id' id) eqn:Eid; [|discriminate Hstep].
    destruct (Nat.leb due (Remote.now w)); [|discriminate Hstep].
    injection Hstep as <-. cbn. now rewrite Eid.
Qed.

(** X19: in every state the remote version reaches from [render()], however
    the keystrokes are spaced, at most one timeout is pending, and it is the
    one whose identifier [this.interval] holds: each keystroke replaces the
    timeout of the one before. *)
Theorem remote_single_pending_timeout
  (es : list Remote.Event) (l : list PopoverItem) (w : Remote.World) :
  Remote.run es (Remote.boot l) = Some w ->
  Remote.timers w = [] \/
  exists id due, Remote.timers w = [(id, due)] /\
                 interval (Remote.popover w) = Some id.
Proof.
  assert (H0 : singlePending (Remote.boot l)) by now left.
  revert H0. generalize (Remote.boot l).
  induction es as [|e es IH]; intros w0 H0; cbn [Remote.run].
  - now intros [= <-].
  - destruct (Remote.step e w0) as [w1|] eqn:E; [|discriminate].
    apply IH. eapply singlePending_step; eauto.
Qed.

Lemma remote_single_pending_timeout_witness :
  exists w,
    Remote.run [Remote.Keydown (chars "a"); Remote.Elapse 700; Remote.Keydown (chars "ab")]
      (Remote.boot [action "Rename" false 1]) = Some w /\
    (Remote.timers w = [] \/
     exists id due, Remote.timers w = [(id, due)] /\
                    interval (Remote.popover w) = Some id).
Proof.
  destruct (Remote.run [Remote.Keydown (chars "a"); Remote.Elapse 700;
                        Remote.Keydown (chars "ab")]
              (Remote.boot [action "Rename" false 1])) as [w|] eqn:E.
  - exists w. split; [reflexivity|].
    exact (remote_single_pending_timeout _ _ w E).
  - vm_compute in E. discriminate E.
Defined.

Lemma find_filter_shorter id (ts : list (nat * nat)) t :
  find (fun x => Nat.eqb (fst x) id) ts = Some t ->
  S (length (List.filter (fun x => negb (Nat.eqb (fst x) id)) ts)) <= length ts.
Proof.
  induction ts as [|x ts IH]; [discriminate|]. cbn [find List.filter].
  destruct (Nat.eqb (fst x) id); cbn [negb length].
  - intros _. pose proof (filter_length_le (fun x => negb (Nat.eqb (fst x) id)) ts). lia.
  - intros H. specialize (IH H). lia.
Qed.

Lemma remote_step_budget e w w' :
  Remote.step e w = Some w' ->
  Remote.fetchCycles w' + length (Remote.timers w')
  <= Remote.fetchCycles w + length (Remote.timers w) + keystrokes [e] /\
  (Remote.inFlight w <= Remote.fetchCycles w ->
   Remote.inFlight w' <= Remote.fetchCycles w').
Proof.
  intros Hstep. pose proof (remote_step_timing e w w' Hstep) as Hsame.
  destruct e as [value | ms | id | o | t | h |]; cbn [Remote.step] in Hstep.
  - injection Hstep as <-. unfold Remote.keydown, Remote.clearTimeout, keystrokes.
    destruct (interval (Remote.popover w)) as [id|]; cbn; rewrite length_app; cbn.
    + pose proof (filter_length_le (fun t => negb (Nat.eqb (fst t) id)) (Remote.timers w)).
      split; lia.
    + split; lia.
  - injection Hstep as <-. cbn. split; lia.
  - unfold Remote.timerFires in Hstep.
    destruct (find _ _) as [[i due]|] eqn:Ef; [|discriminate Hstep].
    destruct (Nat.leb due (Remote.now w)); [|discriminate Hstep].
    injection Hstep as <-. apply find_filter_shorter in Ef. cbn. split; lia.
  - destruct Hsame as (-> & _ & -> & _). split; [cbn; lia|].
    unfold Remote.fetchSettles in Hstep.
    destruct (Remote.inFlight w) as [|n]; [discriminate Hstep|].
    destruct o as [|[ps|]]; cbn [Remote.getData] in Hstep; injection Hstep as <-;
      cbn; lia.
  - destruct Hsame as (-> & _ & Ec & _). rewrite Ec. split; [cbn; lia|].
    assert (G : Remote.finish w <$> Remote.popoverClicked t (Remote.popover w) = Some w').
    { destruct t as [| | id]; auto. now destruct (isAttached id (Remote.popover w)). }
    destruct (Remote.popoverClicked t (Remote.popover w)) as [[s c]|]; [|discriminate G].
    injection G as <-. now destruct c.
  - destruct Hsame as (-> & _ & Ec & _). rewrite Ec. split; [cbn; lia|].
    injection Hstep as <-. now destruct (open h (Remote.popover w)) as [s [|e]].
  - destruct Hsame as (-> & _ & Ec & _). rewrite Ec. split; [cbn; lia|].
    injection Hstep as <-. auto.
Qed.

(** X20: in the remote version no fetch starts without a keystroke: after
    any run from [render()], the fetch cycles started plus the timeouts
    still pending are at most as many as the keystrokes made, and the
    fetches in flight are at most as many as the cycles started. *)
Theorem remote_fetches_bounded_by_keystrokes
  (es : list Remote.Event) (l : list PopoverItem) (w : Remote.World) :
  Remote.run es (Remote.boot l) = Some w ->
  Remote.fetchCycles w + length (Remote.timers w) <= keystrokes es /\
  Remote.inFlight w <= Remote.fetchCycles w.
Proof.
  assert (G : forall es w0 w,
             Remote.run es w0 = Some w ->
             Remote.fetchCycles w + length (Remote.timers w)
             <= Remote.fetchCycles w0 + length (Remote.timers w0) + keystrokes es /\
             (Remote.inFlight w0 <= Remote.fetchCycles w0 ->
              Remote.inFlight w <= Remote.fetchCycles w)).
  { clear. induction es as [|e es IH]; intros w0 w; cbn [Remote.run].
    - intros [= <-]. unfold keystrokes. cbn. split; [lia | auto].
    - destruct (Remote.step e w0) as [w1|] eqn:E; [|discriminate].
      intros Hrun. destruct (IH w1 w Hrun) as [H1 H2].
      destruct (remote_step_budget e w0 w1 E) as [H3 H4].
      split; [|auto]. unfold keystrokes in *. cbn [List.filter] in *.
      destruct (isKeydown e); cbn [length] in *; lia. }
  intros Hrun. destruct (G es (Remote.boot l) w Hrun) as [H1 H2].
  cbn in H1, H2. split; [lia | apply H2; lia].
Qed.

Lemma remote_fetches_bounded_by_keystrokes_witness :
  exists w,
    Remote.run typingAB (Remote.boot [action "Rename" false 1]) = Some w /\
    Remote.fetchCycles w + length (Remote.timers w) <= keystrokes typingAB.
Proof.
  destruct (Remote.run typingAB (Remote.boot [action "Rename" false 1])) as [w|] eqn:E.
  - exists w. split; [reflexivity|].
    exact (proj1 (remote_fetches_bounded_by_keystrokes _ _ w E)).
  - vm_compute in E. discriminate E.
Defined.

(** ** What the remote search does not look at *)

Lemma remote_step_retype f e w : Remote.step (retype f e) w = Remote.step e w.
Proof. now destruct e. Qed.

(** X22: in the remote version the text in the search field has no
    influence on anything: replacing the typed values of a run by any others
    leads to the same world, so the rows shown after a search are those of
    the unfiltered catalogue whatever was typed. *)
Theorem remote_search_ignores_typed_value
  (f : list ascii -> list ascii) (es : list Remote.Event) (w : Remote.World) :
  Remote.run (map (retype f) es) w = Remote.run es w.
Proof.
  revert w. induction es as [|e es IH]; intros w; [reflexivity|].
  cbn [map Remote.run]. rewrite remote_step_retype.
  destruct (Remote.step e w); [apply IH | reflexivity].
Qed.

(** ** Closing while a search is pending *)

(** X23: [close()] does not cancel a search: with a timeout pending, closing
    the popover, letting the timeout come due and fire, and the fetch bring
    products, re-renders the rows from the fetched items while the popover
    stays closed. *)
Theorem close_does_not_cancel_search
  (w : Remote.World) (id due ms : nat) (ps : list Remote.Product) :
  Remote.timers w = [(id, due)] ->
  due <= Remote.now w + ms ->
  exists w',
    Remote.run [Remote.Close; Remote.Elapse ms; Remote.TimerFires id;
                Remote.FetchSettles (Remote.Body (Some ps))] w = Some w' /\
    opened (Remote.popover w') = false /\
    items (Remote.popover w')
    = firstn 2 (items (Remote.popover w)) ++ map Remote.productItem ps /\
    attachedRows (Remote.popover w') = rowsFrom 0 (items (Remote.popover w')) /\
    Remote.timers w' = [] /\
    Remote.fetchCycles w' = S (Remote.fetchCycles w).
Proof.
  intros Ht Hdue. cbn [Remote.run Remote.step].
  unfold Remote.timerFires.
  cbn [Remote.timers Remote.set_popover Remote.set_now Remote.now].
  rewrite Ht. cbn [find fst]. rewrite Nat.eqb_refl.
  apply Nat.leb_le in Hdue. rewrite Hdue.
  unfold Remote.fetchSettles.
  cbn [Remote.inFlight Remote.set_fetchCycles Remote.set_inFlight Remote.getData
       Remote.popover Remote.set_timers Remote.set_popover Remote.set_now].
  eexists. split; [reflexivity|].
  cbn [Remote.popover Remote.set_popover Remote.timers Remote.fetchCycles
       Remote.set_inFlight Remote.set_fetchCycles Remote.set_timers Remote.set_now].
  rewrite remote_renderItems_attached, remote_renderItems_eq, close_eq.
  cbn. rewrite Nat.eqb_refl. auto.
Qed.

Lemma close_does_not_cancel_search_witness :
  exists w',
    Remote.run [Remote.Close; Remote.Elapse 500; Remote.TimerFires 1;
                Remote.FetchSettles (Remote.Body (Some [phone]))]
      (Remote.keydown (chars "a") (Remote.boot [action "Rename" false 1])) = Some w' /\
    opened (Remote.popover w') = false /\
    items (Remote.popover w') = [action "Rename" false 1; Remote.productItem phone].
Proof.
  destruct (close_does_not_cancel_search
              (Remote.keydown (chars "a") (Remote.boot [action "Rename" false 1]))
              1 500 500 [phone] eq_refl ltac:(cbn; lia)) as (w' & E & Ho & Ei & _).
  exists w'. split; [exact E|]. split; [exact Ho|]. exact Ei.
Defined.
